(** * pipedream_solver.ngeometry: hydraulic cross-section geometry

    A shallow embedding of [pipedream_solver/ngeometry.py] over the real
    numbers, and the properties of its shape evaluators.

    Every evaluator of the module is a scalar function compiled by
    [numba.njit] with the default (Python) error model.  The embedding keeps
    the three ways in which such a function can fail to return a real number:

    - a float division whose divisor is zero raises [ZeroDivisionError];
    - [np.arccos], [np.arcsin], [np.sqrt] and [np.log] applied outside their
      domain return NaN (or an infinity), which is not a real number and
      taints every value computed from it;
    - a local variable read on a path that never assigned it raises
      [UnboundLocalError].

    Floating-point rounding and overflow are not modelled: arithmetic is the
    exact arithmetic of [R].  The one result whose sign the rounding of
    [np.pi] decides, the area of the empty elliptical conduit, is also
    evaluated with the double [np_pi] in place of [PI]. *)

From Stdlib Require Import Reals Lra Lia String List.
Import ListNotations.

Local Open Scope R_scope.

(** ** Results of an evaluator *)

Inductive fault : Set :=
| ZeroDivisionError
| NonFinite
| UnboundLocalError.

Inductive result (A : Type) : Type :=
| Ok (v : A)
| Raise (e : fault).

Arguments Ok {A} v.
Arguments Raise {A} e.

Definition bind {A B : Type} (m : result A) (k : A -> result B) : result B :=
  match m with
  | Ok v => k v
  | Raise e => Raise e
  end.

Notation "x <- m ;; k" := (bind m (fun x => k))
  (at level 61, m at next level, right associativity).

(** ** The table of geometry codes

    [geom_code] is a dictionary from shape names to integer codes, here the
    list of its items in source order; a lookup of an absent key, which
    raises [KeyError] in Python, is [None]. *)

Definition geom_code_items : list (string * Z) :=
  [ ("circular"%string, 1%Z);
    ("rect_closed"%string, 2%Z);
    ("rect_open"%string, 3%Z);
    ("triangular"%string, 4%Z);
    ("trapezoidal"%string, 5%Z);
    ("parabolic"%string, 6%Z);
    ("elliptical"%string, 7%Z);
    ("wide"%string, 8%Z);
    ("force_main"%string, 9%Z) ].

Fixpoint lookup (key : string) (items : list (string * Z)) : option Z :=
  match items with
  | [] => None
  | (k, v) :: rest => if String.eqb key k then Some v else lookup key rest
  end.

Definition geom_code (key : string) : option Z := lookup key geom_code_items.

(** ** Arithmetic of the evaluators *)

(** [x // y] is Python's [x / y] on floats. *)
Definition fdiv (x y : R) : result R :=
  if Req_dec_T y 0 then Raise ZeroDivisionError else Ok (x / y).

Infix "//" := fdiv (at level 40, left associativity).

Definition np_arccos (x : R) : result R :=
  if Rle_dec (-1) x then
    if Rle_dec x 1 then Ok (acos x) else Raise NonFinite
  else Raise NonFinite.

Definition np_arcsin (x : R) : result R :=
  if Rle_dec (-1) x then
    if Rle_dec x 1 then Ok (asin x) else Raise NonFinite
  else Raise NonFinite.

Definition np_sqrt (x : R) : result R :=
  if Rle_dec 0 x then Ok (sqrt x) else Raise NonFinite.

Definition np_log (x : R) : result R :=
  if Rlt_dec 0 x then Ok (ln x) else Raise NonFinite.

(** [eps = np.finfo(float).eps], the spacing of doubles at 1. *)
Definition eps : R := / 2 ^ 52.

(** The mean of the two junction depths, as every evaluator computes it. *)
Definition mean (h_Ik h_Ip1k : R) : R := (h_Ik + h_Ip1k) / 2.

(** ** Circular *)

Definition Circular_A_ik (h_Ik h_Ip1k g1 : R) : result R :=
  let d := g1 in
  let y := (h_Ik + h_Ip1k) / 2 in
  let y := if Rlt_dec y 0 then 0 else y in
  let y := if Rgt_dec y d then d else y in
  let r := d / 2 in
  phi <- y // r ;;
  let phi := if Rlt_dec phi 0 then 0 else phi in
  let phi := if Rgt_dec phi 2 then 2 else phi in
  theta <- np_arccos (1 - phi) ;;
  let A := r ^ 2 * (theta - cos theta * sin theta) in
  Ok A.

Definition Circular_Pe_ik (h_Ik h_Ip1k g1 : R) : result R :=
  let d := g1 in
  let y := (h_Ik + h_Ip1k) / 2 in
  let y := if Rlt_dec y 0 then 0 else y in
  let y := if Rgt_dec y d then d else y in
  let r := d / 2 in
  phi <- y // r ;;
  let phi := if Rlt_dec phi 0 then 0 else phi in
  let phi := if Rgt_dec phi 2 then 2 else phi in
  theta <- np_arccos (1 - phi) ;;
  let Pe := 2 * r * theta in
  Ok Pe.

Definition Circular_R_ik (A_ik Pe_ik : R) : result R :=
  if Rgt_dec Pe_ik 0 then A_ik // Pe_ik else Ok 0.

Definition Circular_B_ik (h_Ik h_Ip1k g1 g2 : R) : result R :=
  let d := g1 in
  let pslot := g2 in
  let y := (h_Ik + h_Ip1k) / 2 in
  let y := if Rlt_dec y 0 then 0 else y in
  let r := d / 2 in
  phi <- y // r ;;
  let phi := if Rlt_dec phi 0 then 0 else phi in
  let phi := if Rgt_dec phi 2 then 2 else phi in
  theta <- np_arccos (1 - phi) ;;
  if Rlt_dec y d then Ok (2 * r * sin theta) else Ok (pslot * d).

(** ** Closed rectangular *)

Definition Rect_Closed_A_ik (h_Ik h_Ip1k g1 g2 : R) : result R :=
  let y_max := g1 in
  let b := g2 in
  let y := (h_Ik + h_Ip1k) / 2 in
  let y := if Rlt_dec y 0 then 0 else y in
  let y := if Rgt_dec y y_max then y_max else y in
  let A := y * b in
  Ok A.

Definition Rect_Closed_Pe_ik (h_Ik h_Ip1k g1 g2 : R) : result R :=
  let y_max := g1 in
  let b := g2 in
  let y := (h_Ik + h_Ip1k) / 2 in
  let y := if Rlt_dec y 0 then 0 else y in
  let y := if Rgt_dec y y_max then y_max else y in
  let Pe := b + 2 * y in
  Ok Pe.

Definition Rect_Closed_R_ik (A_ik Pe_ik : R) : result R :=
  if Rgt_dec Pe_ik 0 then A_ik // Pe_ik else Ok 0.

Definition Rect_Closed_B_ik (h_Ik h_Ip1k g1 g2 g3 : R) : result R :=
  let y_max := g1 in
  let b := g2 in
  let pslot := g3 in
  let y := (h_Ik + h_Ip1k) / 2 in
  let y := if Rlt_dec y 0 then 0 else y in
  if Rlt_dec y y_max then Ok b else Ok (pslot * b).

(** ** Open rectangular *)

Definition Rect_Open_A_ik (h_Ik h_Ip1k g1 g2 : R) : result R :=
  let y_max := g1 in
  let b := g2 in
  let y := (h_Ik + h_Ip1k) / 2 in
  let y := if Rlt_dec y 0 then 0 else y in
  let y := if Rgt_dec y y_max then y_max else y in
  let A := y * b in
  Ok A.

Definition Rect_Open_Pe_ik (h_Ik h_Ip1k g1 g2 : R) : result R :=
  let y_max := g1 in
  let b := g2 in
  let y := (h_Ik + h_Ip1k) / 2 in
  let y := if Rlt_dec y 0 then 0 else y in
  let y := if Rgt_dec y y_max then y_max else y in
  let Pe := b + 2 * y in
  Ok Pe.

Definition Rect_Open_R_ik (A_ik Pe_ik : R) : result R :=
  if Rgt_dec Pe_ik 0 then A_ik // Pe_ik else Ok 0.

Definition Rect_Open_B_ik (h_Ik h_Ip1k g1 g2 : R) : result R :=
  let y_max := g1 in
  let b := g2 in
  Ok b.

(** ** Triangular *)

Definition Triangular_A_ik (h_Ik h_Ip1k g1 g2 : R) : result R :=
  let y_max := g1 in
  let m := g2 in
  let y := (h_Ik + h_Ip1k) / 2 in
  let y := if Rlt_dec y 0 then 0 else y in
  let y := if Rgt_dec y y_max then y_max else y in
  let A := m * y ^ 2 in
  Ok A.

Definition Triangular_Pe_ik (h_Ik h_Ip1k g1 g2 : R) : result R :=
  let y_max := g1 in
  let m := g2 in
  let y := (h_Ik + h_Ip1k) / 2 in
  let y := if Rlt_dec y 0 then 0 else y in
  let y := if Rgt_dec y y_max then y_max else y in
  s <- np_sqrt (1 + m ^ 2) ;;
  let Pe := 2 * y * s in
  Ok Pe.

Definition Triangular_R_ik (A_ik Pe_ik : R) : result R :=
  if Rgt_dec Pe_ik 0 then A_ik // Pe_ik else Ok 0.

Definition Triangular_B_ik (h_Ik h_Ip1k g1 g2 : R) : result R :=
  let y_max := g1 in
  let m := g2 in
  let y := (h_Ik + h_Ip1k) / 2 in
  let y := if Rlt_dec y 0 then 0 else y in
  if Rlt_dec y y_max then Ok (2 * m * y) else Ok (2 * m * y_max).

(** ** Trapezoidal *)

Definition Trapezoidal_A_ik (h_Ik h_Ip1k g1 g2 g3 : R) : result R :=
  let y_max := g1 in
  let b := g2 in
  let m := g3 in
  let y := (h_Ik + h_Ip1k) / 2 in
  let y := if Rlt_dec y 0 then 0 else y in
  let y := if Rgt_dec y y_max then y_max else y in
  let A := y * (b + m * y) in
  Ok A.

Definition Trapezoidal_Pe_ik (h_Ik h_Ip1k g1 g2 g3 : R) : result R :=
  let y_max := g1 in
  let b := g2 in
  let m := g3 in
  let y := (h_Ik + h_Ip1k) / 2 in
  let y := if Rlt_dec y 0 then 0 else y in
  let y := if Rgt_dec y y_max then y_max else y in
  s <- np_sqrt (1 + m ^ 2) ;;
  let Pe := b + 2 * y * s in
  Ok Pe.

Definition Trapezoidal_R_ik (A_ik Pe_ik : R) : result R :=
  if Rgt_dec Pe_ik 0 then A_ik // Pe_ik else Ok 0.

Definition Trapezoidal_B_ik (h_Ik h_Ip1k g1 g2 g3 : R) : result R :=
  let y_max := g1 in
  let b := g2 in
  let m := g3 in
  let y := (h_Ik + h_Ip1k) / 2 in
  let y := if Rlt_dec y 0 then 0 else y in
  if Rlt_dec y y_max then Ok (b + 2 * m * y) else Ok (b + 2 * m * y_max).

(** ** Parabolic *)

Definition Parabolic_A_ik (h_Ik h_Ip1k g1 g2 : R) : result R :=
  let y_max := g1 in
  let b := g2 in
  let y := (h_Ik + h_Ip1k) / 2 in
  let y := if Rlt_dec y 0 then 0 else y in
  let y := if Rgt_dec y y_max then y_max else y in
  let A := 2 * b * y / 3 in
  Ok A.

Definition Parabolic_Pe_ik (h_Ik h_Ip1k g1 g2 : R) : result R :=
  let y_max := g1 in
  let b := g2 in
  let y := (h_Ik + h_Ip1k) / 2 in
  let y := if Rle_dec y 0 then eps else y in
  let y := if Rgt_dec y y_max then y_max else y in
  x <- (4 * y) // b ;;
  s <- np_sqrt (1 + x ^ 2) ;;
  u <- 1 // x ;;
  s' <- np_sqrt (1 + x ^ 2) ;;
  l <- np_log (x + s') ;;
  let Pe := (b / 2) * (s + u * l) in
  Ok Pe.

Definition Parabolic_R_ik (A_ik Pe_ik : R) : result R :=
  if Rgt_dec Pe_ik 0 then A_ik // Pe_ik else Ok 0.

Definition Parabolic_B_ik (h_Ik h_Ip1k g1 g2 : R) : result R :=
  let y_max := g1 in
  let b := g2 in
  let y := (h_Ik + h_Ip1k) / 2 in
  let y := if Rlt_dec y 0 then 0 else y in
  q <- y // y_max ;;
  s <- np_sqrt q ;;
  let B := b * s in
  Ok B.

(** ** Elliptical (the module defines no perimeter for this shape) *)

Definition Elliptical_A_ik (h_Ik h_Ip1k g1 g2 : R) : result R :=
  let y_max := g1 in
  let b := g1 / 2 in
  let a := g2 / 2 in
  let y := (h_Ik + h_Ip1k) / 2 in
  let y := if Rlt_dec y 0 then 0 else y in
  let y := if Rgt_dec y y_max then y_max else y in
  q <- (y - b) // b ;;
  theta <- np_arcsin q ;;
  let A_a := a * b * (PI / 2 + theta) in
  let A_b := a * b * cos theta * sin theta in
  let A := A_a + A_b in
  Ok A.

Definition Elliptical_R_ik (A_ik Pe_ik : R) : result R :=
  if Rgt_dec Pe_ik 0 then A_ik // Pe_ik else Ok 0.

Definition Elliptical_B_ik (h_Ik h_Ip1k g1 g2 : R) : result R :=
  let y_max := g1 in
  let b := g1 / 2 in
  let a := g2 / 2 in
  let y := (h_Ik + h_Ip1k) / 2 in
  let y := if Rlt_dec y 0 then 0 else y in
  let y := if Rgt_dec y y_max then y_max else y in
  q <- (y - b) // b ;;
  theta <- np_arcsin q ;;
  s <- np_sqrt (a ^ 2 * cos theta ^ 2 + b ^ 2 * sin theta ^ 2) ;;
  let B := 2 * cos theta * s in
  Ok B.

(** ** Wide *)

Definition Wide_A_ik (h_Ik h_Ip1k g1 g2 : R) : result R :=
  let y_max := g1 in
  let b := g2 in
  let y := (h_Ik + h_Ip1k) / 2 in
  let y := if Rlt_dec y 0 then 0 else y in
  let y := if Rgt_dec y y_max then y_max else y in
  let A := y * b in
  Ok A.

Definition Wide_Pe_ik (h_Ik h_Ip1k g1 g2 : R) : result R :=
  let b := g2 in
  let Pe := b in
  Ok Pe.

Definition Wide_R_ik (A_ik Pe_ik : R) : result R :=
  if Rgt_dec Pe_ik 0 then A_ik // Pe_ik else Ok 0.

Definition Wide_B_ik (h_Ik h_Ip1k g1 g2 : R) : result R :=
  let y_max := g1 in
  let b := g2 in
  Ok b.

(** ** Force main *)

Definition Force_Main_A_ik (h_Ik h_Ip1k g1 g2 : R) : result R :=
  let d := g1 in
  let r := d / 2 in
  let A := PI * r ^ 2 in
  Ok A.

Definition Force_Main_Pe_ik (h_Ik h_Ip1k g1 g2 : R) : result R :=
  let d := g1 in
  let Pe := PI * d in
  Ok Pe.

Definition Force_Main_R_ik (A_ik Pe_ik : R) : result R :=
  if Rgt_dec Pe_ik 0 then A_ik // Pe_ik else Ok 0.

Definition Force_Main_B_ik (h_Ik h_Ip1k g1 g2 : R) : result R :=
  let d := g1 in
  let pslot := g2 in
  let B := pslot * d in
  Ok B.

(** ** Floodplain

    The three evaluators branch with [if y < y_mid: ... elif y >= y_mid: ...]
    and no [else]; a path through neither test reads locals that were never
    assigned. *)

Definition Floodplain_A_ik (h_Ik h_Ip1k g1 g2 g3 g4 g5 g6 : R) : result R :=
  let y_max := g1 in
  let y_mid := g2 in
  let b_lower := g3 in
  let b_upper := g4 in
  let m_lower := g5 in
  let m_upper := g6 in
  let y := (h_Ik + h_Ip1k) / 2 in
  let y := if Rlt_dec y 0 then 0 else y in
  let y := if Rgt_dec y y_max then y_max else y in
  branch <- (if Rlt_dec y y_mid then Ok (y, 0)
             else if Rge_dec y y_mid then Ok (y_mid, y - y_mid)
             else Raise UnboundLocalError) ;;
  let '(y_lower, y_upper) := branch in
  let A_lower := y_lower * (b_lower + m_lower * y_lower) in
  let A_upper := y_upper * (b_upper + m_upper * y_upper) in
  let A := A_lower + A_upper in
  Ok A.

Definition Floodplain_Pe_ik (h_Ik h_Ip1k g1 g2 g3 g4 g5 g6 : R) : result R :=
  let y_max := g1 in
  let y_mid := g2 in
  let b_lower := g3 in
  let b_upper := g4 in
  let m_lower := g5 in
  let m_upper := g6 in
  let y := (h_Ik + h_Ip1k) / 2 in
  let b_mid := b_lower + 2 * m_lower * y_mid in
  let y := if Rlt_dec y 0 then 0 else y in
  let y := if Rgt_dec y y_max then y_max else y in
  branch <- (if Rlt_dec y y_mid then Ok (y, 0, 0)
             else if Rge_dec y y_mid then Ok (y_mid, y - y_mid, 1)
             else Raise UnboundLocalError) ;;
  let '(y_lower, y_upper, k) := branch in
  s_lower <- np_sqrt (1 + m_lower ^ 2) ;;
  let Pe_lower := b_lower + 2 * y_lower * s_lower in
  s_upper <- np_sqrt (1 + m_upper ^ 2) ;;
  let Pe_upper := k * (b_upper - b_mid) + 2 * y_upper * s_upper in
  let Pe := Pe_lower + Pe_upper in
  Ok Pe.

Definition Floodplain_R_ik (A_ik Pe_ik : R) : result R :=
  if Rgt_dec Pe_ik 0 then A_ik // Pe_ik else Ok 0.

Definition Floodplain_B_ik (h_Ik h_Ip1k g1 g2 g3 g4 g5 g6 : R) : result R :=
  let y_max := g1 in
  let y_mid := g2 in
  let b_lower := g3 in
  let b_upper := g4 in
  let m_lower := g5 in
  let m_upper := g6 in
  let y := (h_Ik + h_Ip1k) / 2 in
  let y := if Rlt_dec y 0 then 0 else y in
  let y := if Rgt_dec y y_max then y_max else y in
  B <- (if Rlt_dec y y_mid then
          let y_lower := y in
          Ok (b_lower + 2 * m_lower * y_lower)
        else if Rge_dec y y_mid then
          let y_upper := y - y_mid in
          Ok (b_upper + 2 * m_upper * y_upper)
        else Raise UnboundLocalError) ;;
  Ok B.

(** ** Vocabulary of the properties *)

(** The shared hydraulic-radius rule, in the words of the specification:
    [R = A / Pe] if [Pe > 0], else [0]. *)
Inductive radius_rule (A Pe : R) : result R -> Prop :=
| radius_wet : Pe > 0 -> radius_rule A Pe (Ok (A / Pe))
| radius_dry : Pe <= 0 -> radius_rule A Pe (Ok 0).

(** An evaluator, once its shape parameters are fixed, maps the two junction
    depths to a result. *)
Definition evaluator : Type := R -> R -> result R.

Definition symmetric (f : evaluator) : Prop :=
  forall h_Ik h_Ip1k, f h_Ik h_Ip1k = f h_Ip1k h_Ik.

(** The Depth Reducer of the specification:
    [clamp(mean(h_upstream, h_downstream), 0, y_max)]. *)
Definition clamp (y lo hi : R) : R := Rmax lo (Rmin y hi).

Definition effective_depth (h_Ik h_Ip1k y_max : R) : R :=
  clamp (mean h_Ik h_Ip1k) 0 y_max.

(** [f] reads the depths only through the effective depth. *)
Definition through_effective_depth (f : evaluator) (y_max : R) : Prop :=
  forall h_Ik h_Ip1k,
    f h_Ik h_Ip1k =
    f (effective_depth h_Ik h_Ip1k y_max) (effective_depth h_Ik h_Ip1k y_max).

(** The evaluator returns a real number, and that number is not negative. *)
Definition nonneg (r : result R) : Prop :=
  exists v, r = Ok v /\ 0 <= v.

Definition positive (r : result R) : Prop :=
  exists v, r = Ok v /\ 0 < v.

(** Both evaluations return, and the first value does not exceed the
    second. *)
Definition result_le (r1 r2 : result R) : Prop :=
  exists v1 v2, r1 = Ok v1 /\ r2 = Ok v2 /\ v1 <= v2.

(** [f] is non-decreasing in the mean depth over [[0, y_max]]. *)
Definition monotone_on (f : evaluator) (y_max : R) : Prop :=
  forall h1 h1' h2 h2',
    0 <= mean h1 h1' -> mean h1 h1' <= mean h2 h2' -> mean h2 h2' <= y_max ->
    result_le (f h1 h1') (f h2 h2').

(** As the mean depth tends to [a] from below, [f] returns and its value
    tends to [L]. *)
Definition left_limit (f : evaluator) (a L : R) : Prop :=
  forall e, 0 < e ->
    exists delta, 0 < delta /\
      forall h_Ik h_Ip1k,
        a - delta < mean h_Ik h_Ip1k -> mean h_Ik h_Ip1k < a ->
        exists v, f h_Ik h_Ip1k = Ok v /\ Rabs (v - L) < e.

(** [f] is continuous from below at mean depth [a]: its left limit there is
    the value it returns at [a]. *)
Definition left_continuous_at (f : evaluator) (a : R) : Prop :=
  exists L, f a a = Ok L /\ left_limit f a L.

(** The half-angle subtended at the centre of a circle of diameter [d] by
    the free surface at depth [y]: [theta = arccos (1 - y / r)]. *)
Definition Circular_theta (y d : R) : R := acos (1 - y / (d / 2)).

(** The operand of [np.arcsin] in [Elliptical_A_ik] and [Elliptical_B_ik]. *)
Definition Elliptical_arcsin_arg (h_Ik h_Ip1k g1 : R) : result R :=
  let y_max := g1 in
  let b := g1 / 2 in
  let y := (h_Ik + h_Ip1k) / 2 in
  let y := if Rlt_dec y 0 then 0 else y in
  let y := if Rgt_dec y y_max then y_max else y in
  (y - b) // b.

(** The eccentric angle of the free surface of an ellipse of full height
    [g1] at depth [y]: [theta = arcsin ((y - b) / b)] with [b = g1 / 2]. *)
Definition Elliptical_theta (y g1 : R) : R := asin ((y - g1 / 2) / (g1 / 2)).

(** The perimeter formula of [Parabolic_Pe_ik] at depth [y], for a channel
    of width [b]. *)
Definition Parabolic_perimeter (y b : R) : R :=
  let x := 4 * y / b in
  b / 2 * (sqrt (1 + x ^ 2) + 1 / x * ln (x + sqrt (1 + x ^ 2))).

(** The hydraulic radius computed from the results of an area and a
    perimeter evaluation. *)
Definition radius_of (R_ik : R -> R -> result R) (A Pe : result R) : result R :=
  A_ik <- A ;; Pe_ik <- Pe ;; R_ik A_ik Pe_ik.

(** The four outputs of a shape: area, perimeter, the hydraulic radius of
    the two, and top width, are non-negative real numbers. *)
Definition outputs_nonneg
    (A Pe : result R) (R_ik : R -> R -> result R) (B : result R) : Prop :=
  nonneg A /\ nonneg Pe /\ nonneg (radius_of R_ik A Pe) /\ nonneg B.

(** The evaluator returns a real number: it neither raises nor yields a
    NaN or an infinity. *)
Definition returns (r : result R) : Prop := exists v, r = Ok v.

(** Between two mean depths of [[0, y_max]] the area [A] grows by the depth
    increment times the mean of the two top widths [B]: the top width is the
    rate of change of the area. *)
Definition mean_width_rule (A B : evaluator) (y_max : R) : Prop :=
  forall h1 h1' h2 h2',
    0 <= mean h1 h1' <= y_max -> 0 <= mean h2 h2' <= y_max ->
    exists a1 a2 w1 w2,
      A h1 h1' = Ok a1 /\ A h2 h2' = Ok a2 /\
      B h1 h1' = Ok w1 /\ B h2 h2' = Ok w2 /\
      a2 - a1 = (mean h2 h2' - mean h1 h1') * ((w1 + w2) / 2).

(** The number an evaluation returned (0 for a failed one). *)
Definition value (r : result R) : R :=
  match r with
  | Ok v => v
  | Raise _ => 0
  end.

(** [np.pi]: the double nearest to [PI], with bit pattern
    [0x400921FB54442D18]. *)
Definition np_pi : R := 884279719003555 / 2 ^ 48.

(** The last three assignments of [Elliptical_A_ik], [A_a], [A_b] and [A],
    as a function of the constant [pi] that stands for [np.pi], of the
    semi-axes [a] and [b], and of the angle [theta]. *)
Definition Elliptical_A_of_theta (pi a b theta : R) : R :=
  let A_a := a * b * (pi / 2 + theta) in
  let A_b := a * b * cos theta * sin theta in
  let A := A_a + A_b in
  A.

(** ** Proof automation *)

Ltac plain t :=
  lazymatch t with
  | context [Rlt_dec _ _] => fail
  | context [Rgt_dec _ _] => fail
  | context [Rle_dec _ _] => fail
  | context [Rge_dec _ _] => fail
  | context [Req_dec_T _ _] => fail
  | _ => idtac
  end.

(** Decide every comparison of the goal, innermost first. *)
Ltac decide_cmp :=
  cbv zeta;
  repeat match goal with
  | |- context [Rlt_dec ?a ?b] => plain a; plain b; destruct (Rlt_dec a b)
  | |- context [Rgt_dec ?a ?b] => plain a; plain b; destruct (Rgt_dec a b)
  | |- context [Rle_dec ?a ?b] => plain a; plain b; destruct (Rle_dec a b)
  | |- context [Rge_dec ?a ?b] => plain a; plain b; destruct (Rge_dec a b)
  | |- context [Req_dec_T ?a ?b] => plain a; plain b; destruct (Req_dec_T a b)
  end.

Ltac solve_cmp := decide_cmp; simpl; try reflexivity; try (exfalso; lra).

(** ** The hydraulic-radius rule *)

Lemma radius_rule_sound (A Pe : R) :
  radius_rule A Pe (if Rgt_dec Pe 0 then A // Pe else Ok 0).
Proof.
  unfold fdiv.
  destruct (Rgt_dec Pe 0) as [Hpos | Hneg].
  - destruct (Req_dec_T Pe 0) as [Hz | _]; [lra | now constructor].
  - constructor; lra.
Qed.

(** C4. The ten hydraulic-radius functions all follow the one rule
    [R = A / Pe] when [Pe > 0] and [R = 0] when [Pe <= 0]; in particular each
    of them returns exactly [0] at [Pe = 0]. *)
Theorem radius_functions_share_rule (A Pe : R) :
  (radius_rule A Pe (Circular_R_ik A Pe) /\
   radius_rule A Pe (Rect_Closed_R_ik A Pe) /\
   radius_rule A Pe (Rect_Open_R_ik A Pe) /\
   radius_rule A Pe (Triangular_R_ik A Pe) /\
   radius_rule A Pe (Trapezoidal_R_ik A Pe) /\
   radius_rule A Pe (Parabolic_R_ik A Pe) /\
   radius_rule A Pe (Elliptical_R_ik A Pe) /\
   radius_rule A Pe (Wide_R_ik A Pe) /\
   radius_rule A Pe (Force_Main_R_ik A Pe) /\
   radius_rule A Pe (Floodplain_R_ik A Pe)) /\
  (Circular_R_ik A 0 = Ok 0 /\
   Rect_Closed_R_ik A 0 = Ok 0 /\
   Rect_Open_R_ik A 0 = Ok 0 /\
   Triangular_R_ik A 0 = Ok 0 /\
   Trapezoidal_R_ik A 0 = Ok 0 /\
   Parabolic_R_ik A 0 = Ok 0 /\
   Elliptical_R_ik A 0 = Ok 0 /\
   Wide_R_ik A 0 = Ok 0 /\
   Force_Main_R_ik A 0 = Ok 0 /\
   Floodplain_R_ik A 0 = Ok 0).
Proof.
  split.
  - repeat split; apply radius_rule_sound.
  - unfold Circular_R_ik, Rect_Closed_R_ik, Rect_Open_R_ik, Triangular_R_ik,
      Trapezoidal_R_ik, Parabolic_R_ik, Elliptical_R_ik, Wide_R_ik,
      Force_Main_R_ik, Floodplain_R_ik.
    destruct (Rgt_dec 0 0) as [Habs | _]; [lra | repeat split].
Qed.

(** ** Symmetry in the two junction depths *)

Ltac swap_depths :=
  intros h_Ik h_Ip1k; cbv beta delta [
    Circular_A_ik Circular_Pe_ik Circular_B_ik
    Rect_Closed_A_ik Rect_Closed_Pe_ik Rect_Closed_B_ik
    Rect_Open_A_ik Rect_Open_Pe_ik Rect_Open_B_ik
    Triangular_A_ik Triangular_Pe_ik Triangular_B_ik
    Trapezoidal_A_ik Trapezoidal_Pe_ik Trapezoidal_B_ik
    Parabolic_A_ik Parabolic_Pe_ik Parabolic_B_ik
    Elliptical_A_ik Elliptical_B_ik
    Wide_A_ik Wide_Pe_ik Wide_B_ik
    Force_Main_A_ik Force_Main_Pe_ik Force_Main_B_ik
    Floodplain_A_ik Floodplain_Pe_ik Floodplain_B_ik];
  try rewrite (Rplus_comm h_Ip1k h_Ik); reflexivity.

(** C10. Every area, perimeter and top-width function of every shape returns
    the same result when its two depth arguments are exchanged. *)
Theorem evaluators_symmetric (g1 g2 g3 g4 g5 g6 : R) :
  (symmetric (fun h h' => Circular_A_ik h h' g1) /\
   symmetric (fun h h' => Circular_Pe_ik h h' g1) /\
   symmetric (fun h h' => Circular_B_ik h h' g1 g2)) /\
  (symmetric (fun h h' => Rect_Closed_A_ik h h' g1 g2) /\
   symmetric (fun h h' => Rect_Closed_Pe_ik h h' g1 g2) /\
   symmetric (fun h h' => Rect_Closed_B_ik h h' g1 g2 g3)) /\
  (symmetric (fun h h' => Rect_Open_A_ik h h' g1 g2) /\
   symmetric (fun h h' => Rect_Open_Pe_ik h h' g1 g2) /\
   symmetric (fun h h' => Rect_Open_B_ik h h' g1 g2)) /\
  (symmetric (fun h h' => Triangular_A_ik h h' g1 g2) /\
   symmetric (fun h h' => Triangular_Pe_ik h h' g1 g2) /\
   symmetric (fun h h' => Triangular_B_ik h h' g1 g2)) /\
  (symmetric (fun h h' => Trapezoidal_A_ik h h' g1 g2 g3) /\
   symmetric (fun h h' => Trapezoidal_Pe_ik h h' g1 g2 g3) /\
   symmetric (fun h h' => Trapezoidal_B_ik h h' g1 g2 g3)) /\
  (symmetric (fun h h' => Parabolic_A_ik h h' g1 g2) /\
   symmetric (fun h h' => Parabolic_Pe_ik h h' g1 g2) /\
   symmetric (fun h h' => Parabolic_B_ik h h' g1 g2)) /\
  (symmetric (fun h h' => Elliptical_A_ik h h' g1 g2) /\
   symmetric (fun h h' => Elliptical_B_ik h h' g1 g2)) /\
  (symmetric (fun h h' => Wide_A_ik h h' g1 g2) /\
   symmetric (fun h h' => Wide_Pe_ik h h' g1 g2) /\
   symmetric (fun h h' => Wide_B_ik h h' g1 g2)) /\
  (symmetric (fun h h' => Force_Main_A_ik h h' g1 g2) /\
   symmetric (fun h h' => Force_Main_Pe_ik h h' g1 g2) /\
   symmetric (fun h h' => Force_Main_B_ik h h' g1 g2)) /\
  (symmetric (fun h h' => Floodplain_A_ik h h' g1 g2 g3 g4 g5 g6) /\
   symmetric (fun h h' => Floodplain_Pe_ik h h' g1 g2 g3 g4 g5 g6) /\
   symmetric (fun h h' => Floodplain_B_ik h h' g1 g2 g3 g4 g5 g6)).
Proof.
  repeat split; swap_depths.
Qed.

(** ** Closed rectangular conduit: the Preissman slot *)

Lemma Rect_Closed_B_below (h_Ik h_Ip1k y_max b pslot : R) :
  mean h_Ik h_Ip1k < y_max -> 0 < y_max ->
  Rect_Closed_B_ik h_Ik h_Ip1k y_max b pslot = Ok b.
Proof.
  unfold mean, Rect_Closed_B_ik; intros; solve_cmp.
Qed.

Lemma Rect_Closed_B_full (h_Ik h_Ip1k y_max b pslot : R) :
  y_max <= mean h_Ik h_Ip1k -> 0 < y_max ->
  Rect_Closed_B_ik h_Ik h_Ip1k y_max b pslot = Ok (pslot * b).
Proof.
  unfold mean, Rect_Closed_B_ik; intros; solve_cmp.
Qed.

(** C7. With positive height and width, the top width of a closed rectangle
    is exactly [b] at every mean depth in [[0, y_max)] and exactly
    [pslot * b] at every mean depth [>= y_max]; it takes no other value.
    With height 1, width 1 and slot ratio 0.001 the top width at depth 1 is
    0.001 and not 1. *)
Theorem Rect_Closed_B_slot_jump (h_Ik h_Ip1k y_max b pslot : R) :
  0 < y_max -> 0 < b ->
  (0 <= mean h_Ik h_Ip1k < y_max ->
   Rect_Closed_B_ik h_Ik h_Ip1k y_max b pslot = Ok b) /\
  (mean h_Ik h_Ip1k >= y_max ->
   Rect_Closed_B_ik h_Ik h_Ip1k y_max b pslot = Ok (pslot * b)) /\
  (Rect_Closed_B_ik h_Ik h_Ip1k y_max b pslot = Ok b \/
   Rect_Closed_B_ik h_Ik h_Ip1k y_max b pslot = Ok (pslot * b)) /\
  Rect_Closed_B_ik 1 1 1 1 (1 / 1000) = Ok (1 / 1000) /\
  Rect_Closed_B_ik 1 1 1 1 (1 / 1000) <> Ok 1.
Proof.
  intros Hy Hb. repeat split.
  - intros [_ Hlt]. now apply Rect_Closed_B_below.
  - intros Hge. apply Rect_Closed_B_full; lra.
  - destruct (Rlt_dec (mean h_Ik h_Ip1k) y_max) as [Hlt | Hge].
    + left. now apply Rect_Closed_B_below.
    + right. apply Rect_Closed_B_full; lra.
  - rewrite Rect_Closed_B_full; unfold mean; [f_equal; lra | lra | lra].
  - rewrite Rect_Closed_B_full; unfold mean; [ | lra | lra].
    intros Heq. injection Heq. lra.
Qed.

Lemma Rect_Closed_B_slot_jump_witness :
  Rect_Closed_B_ik (1 / 2) (1 / 2) 1 1 (1 / 1000) = Ok 1 /\
  Rect_Closed_B_ik 3 1 1 1 (1 / 1000) = Ok (1 / 1000 * 1).
Proof.
  pose proof (Rect_Closed_B_slot_jump (1 / 2) (1 / 2) 1 1 (1 / 1000)
                ltac:(lra) ltac:(lra)) as [Hlow _].
  pose proof (Rect_Closed_B_slot_jump 3 1 1 1 (1 / 1000)
                ltac:(lra) ltac:(lra)) as [_ [Hfull _]].
  split.
  - apply Hlow. unfold mean. lra.
  - apply Hfull. unfold mean. lra.
Defined.

(** ** Circular conduit *)

Lemma half_angle_ratio (y d : R) :
  0 < d -> 0 <= y <= d -> 0 <= y / (d / 2) <= 2.
Proof.
  intros Hd [Hy0 Hyd].
  assert (Heq : y / (d / 2) = 2 * y * / d) by (field; lra).
  assert (Hinv : 0 < / d) by now apply Rinv_0_lt_compat.
  assert (Hone : d * / d = 1) by (apply Rinv_r; lra).
  rewrite Heq. split; nra.
Qed.

Lemma effective_depth_range (h_Ik h_Ip1k y_max : R) :
  0 <= y_max -> 0 <= effective_depth h_Ik h_Ip1k y_max <= y_max.
Proof.
  intros Hy. unfold effective_depth, clamp, Rmax, Rmin.
  decide_cmp; lra.
Qed.

Lemma effective_depth_clamped (h_Ik h_Ip1k y_max : R) :
  0 <= y_max ->
  effective_depth h_Ik h_Ip1k y_max =
  let y := (h_Ik + h_Ip1k) / 2 in
  let y := if Rlt_dec y 0 then 0 else y in
  if Rgt_dec y y_max then y_max else y.
Proof.
  intros Hy. unfold effective_depth, clamp, mean, Rmax, Rmin.
  decide_cmp; lra.
Qed.

Lemma Circular_A_closed_form (h_Ik h_Ip1k d : R) :
  0 < d ->
  Circular_A_ik h_Ik h_Ip1k d =
  Ok ((d / 2) ^ 2 * (Circular_theta (effective_depth h_Ik h_Ip1k d) d
                     - cos (Circular_theta (effective_depth h_Ik h_Ip1k d) d)
                       * sin (Circular_theta (effective_depth h_Ik h_Ip1k d) d))).
Proof.
  intros Hd.
  pose proof (effective_depth_range h_Ik h_Ip1k d ltac:(lra)) as Hrange.
  pose proof (half_angle_ratio _ d Hd Hrange) as Hphi.
  rewrite effective_depth_clamped in * by lra.
  unfold Circular_A_ik, Circular_theta, np_arccos, fdiv. cbv zeta in *.
  destruct (Req_dec_T (d / 2) 0); [lra|]. simpl.
  set (y := if Rgt_dec _ d then d else _) in *.
  destruct (Rlt_dec (y / (d/2)) 0); [lra|].
  destruct (Rgt_dec (y / (d/2)) 2); [lra|].
  destruct (Rle_dec (-1) (1 - y / (d / 2))); [|lra].
  destruct (Rle_dec (1 - y / (d / 2)) 1); [|lra].
  reflexivity.
Qed.

Lemma Circular_Pe_closed_form (h_Ik h_Ip1k d : R) :
  0 < d ->
  Circular_Pe_ik h_Ik h_Ip1k d =
  Ok (2 * (d / 2) * Circular_theta (effective_depth h_Ik h_Ip1k d) d).
Proof.
  intros Hd.
  pose proof (effective_depth_range h_Ik h_Ip1k d ltac:(lra)) as Hrange.
  pose proof (half_angle_ratio _ d Hd Hrange) as Hphi.
  rewrite effective_depth_clamped in * by lra.
  unfold Circular_Pe_ik, Circular_theta, np_arccos, fdiv. cbv zeta in *.
  destruct (Req_dec_T (d / 2) 0); [lra|]. simpl.
  set (y := if Rgt_dec _ d then d else _) in *.
  destruct (Rlt_dec (y / (d/2)) 0); [lra|].
  destruct (Rgt_dec (y / (d/2)) 2); [lra|].
  destruct (Rle_dec (-1) (1 - y / (d / 2))); [|lra].
  destruct (Rle_dec (1 - y / (d / 2)) 1); [|lra].
  reflexivity.
Qed.

Lemma Circular_B_closed_form (h_Ik h_Ip1k d pslot : R) :
  0 < d ->
  Circular_B_ik h_Ik h_Ip1k d pslot =
  if Rlt_dec (effective_depth h_Ik h_Ip1k d) d
  then Ok (2 * (d / 2) * sin (Circular_theta (effective_depth h_Ik h_Ip1k d) d))
  else Ok (pslot * d).
Proof.
  intros Hd.
  pose proof (effective_depth_range h_Ik h_Ip1k d ltac:(lra)) as Hrange.
  pose proof (half_angle_ratio _ d Hd Hrange) as Hphi.
  rewrite effective_depth_clamped in * by lra.
  unfold Circular_B_ik, Circular_theta, np_arccos, fdiv. cbv zeta in *.
  destruct (Req_dec_T (d / 2) 0); [lra|]. simpl.
  set (y := if Rlt_dec _ 0 then 0 else _) in *.
  destruct (Rgt_dec y d) as [Hfull | Hpart].
  - (* surcharged: the ratio saturates at 2 and the slot width is returned *)
    assert (Hratio : 2 <= y / (d / 2)).
    { assert (Heq : y / (d / 2) = 2 * y * / d) by (field; lra).
      assert (Hinv : 0 < / d) by now apply Rinv_0_lt_compat.
      assert (Hone : d * / d = 1) by (apply Rinv_r; lra).
      rewrite Heq. nra. }
    destruct (Rlt_dec (y / (d / 2)) 0); [lra|].
    destruct (Rlt_dec d d); [lra|].
    destruct (Rlt_dec y d); [lra|].
    destruct (Rgt_dec (y / (d / 2)) 2).
    + destruct (Rle_dec (-1) (1 - 2)); [|lra].
      destruct (Rle_dec (1 - 2) 1); [|lra]. reflexivity.
    + destruct (Rle_dec (-1) (1 - y / (d / 2))); [|lra].
      destruct (Rle_dec (1 - y / (d / 2)) 1); [|lra]. reflexivity.
  - destruct (Rlt_dec (y / (d/2)) 0); [lra|].
    destruct (Rgt_dec (y / (d/2)) 2); [lra|].
    destruct (Rle_dec (-1) (1 - y / (d / 2))); [|lra].
    destruct (Rle_dec (1 - y / (d / 2)) 1); [|lra].
    reflexivity.
Qed.

Lemma effective_depth_same (y y_max : R) :
  0 <= y <= y_max -> effective_depth y y y_max = y.
Proof.
  intros Hy. unfold effective_depth, clamp, mean, Rmax, Rmin.
  decide_cmp; lra.
Qed.

Lemma PI_bounds : 31415 / 10000 < PI < 31422 / 10000.
Proof.
  pose proof (PI_2_3_7_ineq 1) as H.
  unfold PI_2_3_7_tg, tg_alt, Ratan_seq in H. simpl in H. lra.
Qed.

(** C9.  A circular conduit of diameter 1 at depth 1/2 has area [PI / 8]
    (about 0.3927), wetted perimeter [PI / 2], hydraulic radius [1 / 4] and
    top width 1. *)
Theorem Circular_half_full :
  Circular_A_ik (1 / 2) (1 / 2) 1 = Ok (PI / 8) /\
  Circular_Pe_ik (1 / 2) (1 / 2) 1 = Ok (PI / 2) /\
  Circular_R_ik (PI / 8) (PI / 2) = Ok (1 / 4) /\
  radius_of Circular_R_ik (Circular_A_ik (1 / 2) (1 / 2) 1)
            (Circular_Pe_ik (1 / 2) (1 / 2) 1) = Ok (1 / 4) /\
  (forall pslot, Circular_B_ik (1 / 2) (1 / 2) 1 pslot = Ok 1) /\
  (3926 / 10000 < PI / 8 < 3928 / 10000).
Proof.
  assert (Hy : effective_depth (1 / 2) (1 / 2) 1 = 1 / 2)
    by (apply effective_depth_same; lra).
  assert (Htheta : Circular_theta (1 / 2) 1 = PI / 2).
  { unfold Circular_theta.
    replace (1 - 1 / 2 / (1 / 2)) with 0 by field. apply acos_0. }
  pose proof PI_RGT_0 as Hpi.
  pose proof PI_bounds as Hbounds.
  assert (HA : Circular_A_ik (1 / 2) (1 / 2) 1 = Ok (PI / 8)).
  { rewrite Circular_A_closed_form, Hy, Htheta, cos_PI2, sin_PI2 by lra.
    f_equal. field. }
  assert (HPe : Circular_Pe_ik (1 / 2) (1 / 2) 1 = Ok (PI / 2)).
  { rewrite Circular_Pe_closed_form, Hy, Htheta by lra. f_equal. field. }
  assert (HR : Circular_R_ik (PI / 8) (PI / 2) = Ok (1 / 4)).
  { unfold Circular_R_ik, fdiv.
    destruct (Rgt_dec (PI / 2) 0); [|lra].
    destruct (Req_dec_T (PI / 2) 0); [lra|]. f_equal. field. lra. }
  split; [exact HA|]. split; [exact HPe|]. split; [exact HR|].
  split; [now rewrite HA, HPe|].
  split; [|lra].
  intros pslot.
  rewrite Circular_B_closed_form, Hy, Htheta, sin_PI2 by lra.
  destruct (Rlt_dec (1 / 2) 1); [|lra]. f_equal. field.
Qed.

(** The two open-channel scenarios of the specification: an open rectangle
    of height 2 and width 3/2 at depth 1, and a triangle of height 1 and
    side slope 2 at depth 1/2. *)
Example Rect_Open_scenario :
  Rect_Open_A_ik 1 1 2 (3 / 2) = Ok (3 / 2) /\
  Rect_Open_Pe_ik 1 1 2 (3 / 2) = Ok (7 / 2) /\
  Rect_Open_R_ik (3 / 2) (7 / 2) = Ok (3 / 7) /\
  Rect_Open_B_ik 1 1 2 (3 / 2) = Ok (3 / 2).
Proof.
  unfold Rect_Open_A_ik, Rect_Open_Pe_ik, Rect_Open_R_ik, Rect_Open_B_ik, fdiv.
  repeat split; decide_cmp; try (exfalso; lra); f_equal; lra.
Qed.

Example Triangular_scenario :
  Triangular_A_ik (1 / 2) (1 / 2) 1 2 = Ok (1 / 2) /\
  Triangular_Pe_ik (1 / 2) (1 / 2) 1 2 = Ok (sqrt 5) /\
  Triangular_B_ik (1 / 2) (1 / 2) 1 2 = Ok 2.
Proof.
  unfold Triangular_A_ik, Triangular_Pe_ik, Triangular_B_ik, np_sqrt.
  replace (1 + 2 ^ 2) with 5 by ring.
  repeat split; decide_cmp; try (exfalso; lra); cbn [bind]; f_equal; lra.
Qed.

(** ** The circular-segment function [t - cos t * sin t] *)

Lemma sin_abs_le (u : R) : 0 <= u -> - u <= sin u <= u.
Proof.
  intros Hu. pose proof (SIN_bound u) as [Hlo Hhi].
  destruct (Req_dec u 0) as [-> | Hne]; [rewrite sin_0; lra|].
  assert (Hpos : 0 < u) by lra.
  pose proof (sin_lt_x u Hpos). split; [|lra].
  destruct (Rle_dec 1 u) as [Hbig | Hsmall]; [lra|].
  pose proof PI2_1. pose proof (sin_gt_0 u Hpos ltac:(lra)). lra.
Qed.

Lemma segment_monotone (s t : R) :
  s <= t -> s - cos s * sin s <= t - cos t * sin t.
Proof.
  intros Hst.
  assert (Hdiff : cos t * sin t - cos s * sin s = cos (t + s) * sin (t - s)).
  { pose proof (form4 (2 * t) (2 * s)) as H.
    rewrite !sin_2a in H.
    replace ((2 * t + 2 * s) / 2) with (t + s) in H by field.
    replace ((2 * t - 2 * s) / 2) with (t - s) in H by field. lra. }
  pose proof (sin_abs_le (t - s) ltac:(lra)) as [Hlo Hhi].
  pose proof (COS_bound (t + s)) as [Hclo Hchi].
  nra.
Qed.

Lemma segment_nonneg (t : R) : 0 <= t -> 0 <= t - cos t * sin t.
Proof.
  intros Ht. pose proof (segment_monotone 0 t Ht) as H.
  rewrite sin_0 in H. lra.
Qed.

Lemma acos_antitone (a b : R) :
  -1 <= a -> a <= b -> b <= 1 -> acos b <= acos a.
Proof.
  intros Ha Hab Hb.
  destruct (Rle_dec (acos b) (acos a)) as [Hle | Hgt]; [exact Hle|].
  exfalso.
  pose proof (acos_bound a) as [Ha0 HaPI].
  pose proof (acos_bound b) as [Hb0 HbPI].
  pose proof (cos_decreasing_1 (acos a) (acos b) Ha0 HaPI Hb0 HbPI ltac:(lra)) as H.
  rewrite !cos_acos in H by lra. lra.
Qed.

Lemma Circular_theta_monotone (y1 y2 d : R) :
  0 < d -> 0 <= y1 -> y1 <= y2 -> y2 <= d ->
  Circular_theta y1 d <= Circular_theta y2 d.
Proof.
  intros Hd H1 H12 H2. unfold Circular_theta.
  pose proof (half_angle_ratio y1 d Hd ltac:(lra)).
  pose proof (half_angle_ratio y2 d Hd ltac:(lra)).
  assert (Hle : y1 / (d / 2) <= y2 / (d / 2)).
  { unfold Rdiv. apply Rmult_le_compat_r; [|lra].
    apply Rlt_le, Rinv_0_lt_compat. lra. }
  apply acos_antitone; lra.
Qed.

(** ** Monotonicity of the flow area *)

Lemma effective_depth_of_mean (h_Ik h_Ip1k y_max : R) :
  0 <= mean h_Ik h_Ip1k <= y_max ->
  effective_depth h_Ik h_Ip1k y_max = mean h_Ik h_Ip1k.
Proof.
  intros Hy. unfold effective_depth, clamp, Rmax, Rmin.
  decide_cmp; lra.
Qed.

Lemma Circular_A_monotone (d : R) :
  0 < d -> monotone_on (fun h h' => Circular_A_ik h h' d) d.
Proof.
  intros Hd h1 h1' h2 h2' H0 H12 Hmax.
  rewrite !Circular_A_closed_form by exact Hd.
  rewrite !effective_depth_of_mean by lra.
  do 2 eexists. split; [reflexivity|]. split; [reflexivity|].
  apply Rmult_le_compat_l; [apply pow2_ge_0|].
  apply segment_monotone, Circular_theta_monotone; lra.
Qed.

Ltac monotone_by_cases :=
  let y1 := fresh "y1" in
  let y2 := fresh "y2" in
  let Hsq := fresh "Hsq" in
  intros h1 h1' h2 h2'; unfold mean;
  set (y1 := (h1 + h1') / 2); set (y2 := (h2 + h2') / 2);
  intros H0 H12 Hmax;
  assert (Hsq : y1 * y1 <= y2 * y2) by nra;
  do 2 eexists; split; [reflexivity|]; split; [reflexivity|];
  decide_cmp; nra.

Lemma Rect_Closed_A_monotone (y_max b : R) :
  0 <= b -> monotone_on (fun h h' => Rect_Closed_A_ik h h' y_max b) y_max.
Proof. intros Hb. unfold Rect_Closed_A_ik. monotone_by_cases. Qed.

Lemma Rect_Open_A_monotone (y_max b : R) :
  0 <= b -> monotone_on (fun h h' => Rect_Open_A_ik h h' y_max b) y_max.
Proof. intros Hb. unfold Rect_Open_A_ik. monotone_by_cases. Qed.

Lemma Triangular_A_monotone (y_max m : R) :
  0 <= m -> monotone_on (fun h h' => Triangular_A_ik h h' y_max m) y_max.
Proof. intros Hm. unfold Triangular_A_ik. monotone_by_cases. Qed.

Lemma Trapezoidal_A_monotone (y_max b m : R) :
  0 <= b -> 0 <= m ->
  monotone_on (fun h h' => Trapezoidal_A_ik h h' y_max b m) y_max.
Proof. intros Hb Hm. unfold Trapezoidal_A_ik. monotone_by_cases. Qed.

Lemma Wide_A_monotone (y_max b : R) :
  0 <= b -> monotone_on (fun h h' => Wide_A_ik h h' y_max b) y_max.
Proof. intros Hb. unfold Wide_A_ik. monotone_by_cases. Qed.

Lemma Floodplain_A_closed_form (h_Ik h_Ip1k y_max y_mid b_lower b_upper m_lower m_upper : R) :
  0 <= y_max ->
  Floodplain_A_ik h_Ik h_Ip1k y_max y_mid b_lower b_upper m_lower m_upper =
  let y := effective_depth h_Ik h_Ip1k y_max in
  if Rlt_dec y y_mid
  then Ok (y * (b_lower + m_lower * y) + 0 * (b_upper + m_upper * 0))
  else Ok (y_mid * (b_lower + m_lower * y_mid)
           + (y - y_mid) * (b_upper + m_upper * (y - y_mid))).
Proof.
  intros Hy. rewrite effective_depth_clamped by exact Hy.
  unfold Floodplain_A_ik. cbv zeta.
  set (y := if Rgt_dec _ y_max then y_max else _).
  destruct (Rlt_dec y y_mid); [reflexivity|].
  destruct (Rge_dec y y_mid); [reflexivity|lra].
Qed.

Lemma Floodplain_A_monotone (y_max y_mid b_lower b_upper m_lower m_upper : R) :
  0 <= y_mid -> 0 <= b_lower -> 0 <= b_upper -> 0 <= m_lower -> 0 <= m_upper ->
  monotone_on
    (fun h h' => Floodplain_A_ik h h' y_max y_mid b_lower b_upper m_lower m_upper)
    y_max.
Proof.
  intros Hmid Hbl Hbu Hml Hmu h1 h1' h2 h2' H0 H12 Hmax.
  rewrite !Floodplain_A_closed_form by lra. cbv zeta.
  rewrite !effective_depth_of_mean by lra.
  set (y1 := mean h1 h1') in *. set (y2 := mean h2 h2') in *.
  assert (Hsq : y1 * y1 <= y2 * y2) by nra.
  destruct (Rlt_dec y1 y_mid) as [Hlow1 | Hup1],
           (Rlt_dec y2 y_mid) as [Hlow2 | Hup2];
    do 2 eexists; (split; [reflexivity|]); (split; [reflexivity|]).
  - nra.
  - assert (Hmidsq : y1 * y1 <= y_mid * y_mid) by nra.
    assert (Hup : 0 <= (y2 - y_mid) * (y2 - y_mid)) by nra.
    assert (Hupm : 0 <= m_upper * ((y2 - y_mid) * (y2 - y_mid)))
      by (apply Rmult_le_pos; lra).
    nra.
  - lra.
  - assert (Hup : (y1 - y_mid) * (y1 - y_mid) <= (y2 - y_mid) * (y2 - y_mid))
      by nra.
    nra.
Qed.

(** C6 (amended). The flow area is non-decreasing in the mean depth over
    [[0, y_max]] for the circular shape of positive diameter and, for
    non-negative widths and side slopes, for the closed rectangular, open
    rectangular, triangular, trapezoidal, wide and floodplain shapes. *)
Theorem Area_monotone (y_max y_mid b b_upper m m_upper : R) :
  0 <= y_mid -> 0 <= b -> 0 <= b_upper -> 0 <= m -> 0 <= m_upper ->
  (0 < y_max -> monotone_on (fun h h' => Circular_A_ik h h' y_max) y_max) /\
  monotone_on (fun h h' => Rect_Closed_A_ik h h' y_max b) y_max /\
  monotone_on (fun h h' => Rect_Open_A_ik h h' y_max b) y_max /\
  monotone_on (fun h h' => Triangular_A_ik h h' y_max m) y_max /\
  monotone_on (fun h h' => Trapezoidal_A_ik h h' y_max b m) y_max /\
  monotone_on (fun h h' => Wide_A_ik h h' y_max b) y_max /\
  monotone_on
    (fun h h' => Floodplain_A_ik h h' y_max y_mid b b_upper m m_upper) y_max.
Proof.
  intros Hmid Hb Hbu Hm Hmu.
  split; [intros Hd; now apply Circular_A_monotone|].
  split; [now apply Rect_Closed_A_monotone|].
  split; [now apply Rect_Open_A_monotone|].
  split; [now apply Triangular_A_monotone|].
  split; [now apply Trapezoidal_A_monotone|].
  split; [now apply Wide_A_monotone|].
  now apply Floodplain_A_monotone.
Qed.

Lemma Area_monotone_witness :
  monotone_on (fun h h' => Circular_A_ik h h' 1) 1 /\
  monotone_on (fun h h' => Trapezoidal_A_ik h h' 1 2 1) 1 /\
  monotone_on (fun h h' => Floodplain_A_ik h h' 1 (1 / 2) 2 3 1 1) 1.
Proof.
  pose proof (Area_monotone 1 (1 / 2) 2 3 1 1
                ltac:(lra) ltac:(lra) ltac:(lra) ltac:(lra) ltac:(lra))
    as (Hcirc & _ & _ & _ & Htrap & _ & Hflood).
  split; [apply Hcirc; lra|]. split; [exact Htrap | exact Hflood].
Defined.

Lemma Circular_A_zero_diameter (h_Ik h_Ip1k : R) :
  Circular_A_ik h_Ik h_Ip1k 0 = Raise ZeroDivisionError.
Proof.
  unfold Circular_A_ik, fdiv. cbv zeta.
  destruct (Req_dec_T (0 / 2) 0); [reflexivity|lra].
Qed.

(** C6, as stated, fails for a circular conduit of diameter 0: the area
    function divides the depth by the radius and raises. *)
Lemma Area_monotone_fails_at_zero_diameter :
  Circular_A_ik 0 0 0 = Raise ZeroDivisionError /\
  ~ monotone_on (fun h h' => Circular_A_ik h h' 0) 0.
Proof.
  split; [apply Circular_A_zero_diameter|].
  intros Hmono.
  destruct (Hmono 0 0 0 0) as (v1 & v2 & H1 & _); unfold mean; try lra.
  rewrite Circular_A_zero_diameter in H1. discriminate.
Qed.

(** ** Elliptical conduit *)

Lemma Elliptical_A_operand (h_Ik h_Ip1k g1 g2 : R) :
  Elliptical_A_ik h_Ik h_Ip1k g1 g2 =
  q <- Elliptical_arcsin_arg h_Ik h_Ip1k g1 ;;
  theta <- np_arcsin q ;;
  Ok (g2 / 2 * (g1 / 2) * (PI / 2 + theta)
      + g2 / 2 * (g1 / 2) * cos theta * sin theta).
Proof. reflexivity. Qed.

Lemma Elliptical_B_operand (h_Ik h_Ip1k g1 g2 : R) :
  Elliptical_B_ik h_Ik h_Ip1k g1 g2 =
  q <- Elliptical_arcsin_arg h_Ik h_Ip1k g1 ;;
  theta <- np_arcsin q ;;
  s <- np_sqrt ((g2 / 2) ^ 2 * cos theta ^ 2 + (g1 / 2) ^ 2 * sin theta ^ 2) ;;
  Ok (2 * cos theta * s).
Proof. reflexivity. Qed.

Lemma Elliptical_ratio (y g1 : R) :
  0 < g1 -> 0 <= y <= g1 -> -1 <= (y - g1 / 2) / (g1 / 2) <= 1.
Proof.
  intros Hg [Hy0 Hy1].
  assert (Heq : (y - g1 / 2) / (g1 / 2) = 2 * y * / g1 - 1) by (field; lra).
  assert (Hinv : 0 < / g1) by now apply Rinv_0_lt_compat.
  assert (Hone : g1 * / g1 = 1) by (apply Rinv_r; lra).
  rewrite Heq. split; nra.
Qed.

Lemma Elliptical_arcsin_arg_closed_form (h_Ik h_Ip1k g1 : R) :
  0 < g1 ->
  Elliptical_arcsin_arg h_Ik h_Ip1k g1 =
  Ok ((effective_depth h_Ik h_Ip1k g1 - g1 / 2) / (g1 / 2)).
Proof.
  intros Hg. rewrite effective_depth_clamped by lra.
  unfold Elliptical_arcsin_arg, fdiv. cbv zeta.
  destruct (Req_dec_T (g1 / 2) 0); [lra | reflexivity].
Qed.

Lemma np_arcsin_in_range (q : R) : -1 <= q <= 1 -> np_arcsin q = Ok (asin q).
Proof.
  intros [Hlo Hhi]. unfold np_arcsin.
  destruct (Rle_dec (-1) q); [|lra]. destruct (Rle_dec q 1); [reflexivity|lra].
Qed.

Lemma np_sqrt_nonneg (x : R) : 0 <= x -> np_sqrt x = Ok (sqrt x).
Proof.
  intros Hx. unfold np_sqrt. destruct (Rle_dec 0 x); [reflexivity|lra].
Qed.

Lemma Elliptical_A_closed_form (h_Ik h_Ip1k g1 g2 : R) :
  0 < g1 ->
  Elliptical_A_ik h_Ik h_Ip1k g1 g2 =
  let theta := Elliptical_theta (effective_depth h_Ik h_Ip1k g1) g1 in
  Ok (g2 / 2 * (g1 / 2) * (PI / 2 + theta)
      + g2 / 2 * (g1 / 2) * cos theta * sin theta).
Proof.
  intros Hg.
  rewrite Elliptical_A_operand, Elliptical_arcsin_arg_closed_form by exact Hg.
  simpl. rewrite np_arcsin_in_range; [reflexivity|].
  apply Elliptical_ratio; [exact Hg|]. apply effective_depth_range. lra.
Qed.

Lemma ellipse_radicand_nonneg (a b t : R) :
  0 <= a ^ 2 * cos t ^ 2 + b ^ 2 * sin t ^ 2.
Proof.
  apply Rplus_le_le_0_compat; apply Rmult_le_pos; apply pow2_ge_0.
Qed.

Lemma Elliptical_B_closed_form (h_Ik h_Ip1k g1 g2 : R) :
  0 < g1 ->
  Elliptical_B_ik h_Ik h_Ip1k g1 g2 =
  let theta := Elliptical_theta (effective_depth h_Ik h_Ip1k g1) g1 in
  Ok (2 * cos theta
      * sqrt ((g2 / 2) ^ 2 * cos theta ^ 2 + (g1 / 2) ^ 2 * sin theta ^ 2)).
Proof.
  intros Hg.
  rewrite Elliptical_B_operand, Elliptical_arcsin_arg_closed_form by exact Hg.
  simpl. rewrite np_arcsin_in_range.
  - simpl. rewrite np_sqrt_nonneg; [reflexivity|].
    apply (ellipse_radicand_nonneg (g2 / 2) (g1 / 2)).
  - apply Elliptical_ratio; [exact Hg|]. apply effective_depth_range. lra.
Qed.

Lemma asin_minus_1 : asin (-1) = - (PI / 2).
Proof.
  unfold asin. destruct (Rle_dec (-1) (-1)); [reflexivity|lra].
Qed.

(** ** Empty cross-sections *)

Lemma effective_depth_zero (y_max : R) :
  0 <= y_max -> effective_depth 0 0 y_max = 0.
Proof. intros Hy. apply effective_depth_same. lra. Qed.

Lemma Circular_A_empty (d : R) : 0 < d -> Circular_A_ik 0 0 d = Ok 0.
Proof.
  intros Hd. rewrite Circular_A_closed_form, effective_depth_zero by lra.
  unfold Circular_theta.
  replace (1 - 0 / (d / 2)) with 1 by (field; lra).
  rewrite acos_1, sin_0. f_equal. ring.
Qed.

Lemma Floodplain_A_empty (y_max y_mid b_lower b_upper m_lower m_upper : R) :
  0 <= y_max -> 0 <= y_mid ->
  Floodplain_A_ik 0 0 y_max y_mid b_lower b_upper m_lower m_upper = Ok 0.
Proof.
  intros Hy Hmid. rewrite Floodplain_A_closed_form, effective_depth_zero by lra.
  cbv zeta. destruct (Rlt_dec 0 y_mid); f_equal; [ring|].
  replace y_mid with 0 by lra. ring.
Qed.

Ltac empty_section := cbv zeta; decide_cmp; f_equal; lra.

(** C5 (amended).  At zero depth the flow area is exactly 0 for the circular
    shape of positive diameter and, for all non-negative shape parameters,
    for the closed rectangular, open rectangular, triangular, trapezoidal,
    parabolic, wide and floodplain shapes.  The area of a force main is
    [PI * (d / 2) ^ 2] at every pair of depths.  Nothing is stated of the
    elliptical shape, whose area at zero depth is a rounding residue of
    [cos (arcsin (-1))] and not exactly 0. *)
Theorem Area_empty (g1 g2 g3 g4 g5 g6 : R) :
  0 <= g1 -> 0 <= g2 -> 0 <= g3 -> 0 <= g4 -> 0 <= g5 -> 0 <= g6 ->
  (0 < g1 -> Circular_A_ik 0 0 g1 = Ok 0) /\
  Rect_Closed_A_ik 0 0 g1 g2 = Ok 0 /\
  Rect_Open_A_ik 0 0 g1 g2 = Ok 0 /\
  Triangular_A_ik 0 0 g1 g2 = Ok 0 /\
  Trapezoidal_A_ik 0 0 g1 g2 g3 = Ok 0 /\
  Parabolic_A_ik 0 0 g1 g2 = Ok 0 /\
  Wide_A_ik 0 0 g1 g2 = Ok 0 /\
  Floodplain_A_ik 0 0 g1 g2 g3 g4 g5 g6 = Ok 0 /\
  (forall h_Ik h_Ip1k,
     Force_Main_A_ik h_Ik h_Ip1k g1 g2 = Ok (PI * (g1 / 2) ^ 2)).
Proof.
  intros H1 H2 H3 H4 H5 H6.
  split; [apply Circular_A_empty|].
  split; [unfold Rect_Closed_A_ik; empty_section|].
  split; [unfold Rect_Open_A_ik; empty_section|].
  split; [unfold Triangular_A_ik; empty_section|].
  split; [unfold Trapezoidal_A_ik; empty_section|].
  split; [unfold Parabolic_A_ik; empty_section|].
  split; [unfold Wide_A_ik; empty_section|].
  split; [now apply Floodplain_A_empty|].
  reflexivity.
Qed.

Lemma Area_empty_witness :
  Circular_A_ik 0 0 1 = Ok 0 /\
  Floodplain_A_ik 0 0 1 2 3 4 5 6 = Ok 0 /\
  Force_Main_A_ik 7 (-3) 1 2 = Ok (PI * (1 / 2) ^ 2).
Proof.
  pose proof (Area_empty 1 2 3 4 5 6 ltac:(lra) ltac:(lra) ltac:(lra)
                ltac:(lra) ltac:(lra) ltac:(lra))
    as (Hcirc & _ & _ & _ & _ & _ & _ & Hflood & Hforce).
  split; [apply Hcirc; lra|].
  split; [exact Hflood | apply Hforce].
Defined.

Lemma Elliptical_A_zero_height (h_Ik h_Ip1k g2 : R) :
  Elliptical_A_ik h_Ik h_Ip1k 0 g2 = Raise ZeroDivisionError.
Proof.
  unfold Elliptical_A_ik, fdiv. cbv zeta.
  destruct (Req_dec_T (0 / 2) 0); [reflexivity|lra].
Qed.

(** C5, as stated, fails at parameter 0, which is non-negative: a circular
    conduit of diameter 0 and an elliptical one of height 0 divide by zero
    instead of returning area 0. *)
Lemma Area_empty_fails_at_zero_size :
  Circular_A_ik 0 0 0 <> Ok 0 /\ Elliptical_A_ik 0 0 0 0 <> Ok 0.
Proof.
  rewrite Circular_A_zero_diameter, Elliptical_A_zero_height.
  split; discriminate.
Qed.

(** ** Parabolic channel: the epsilon substitution *)

Lemma eps_pos : 0 < eps.
Proof. unfold eps. apply Rinv_0_lt_compat, pow_lt. lra. Qed.

Lemma sqrt_1_plus_sq_ge_1 (x : R) : 1 <= sqrt (1 + x ^ 2).
Proof.
  rewrite <- sqrt_1 at 1. apply sqrt_le_1_alt.
  pose proof (pow2_ge_0 x). lra.
Qed.

Lemma Parabolic_perimeter_pos (y b : R) :
  0 < y -> 0 < b -> 0 < Parabolic_perimeter y b.
Proof.
  intros Hy Hb. unfold Parabolic_perimeter. cbv zeta.
  set (x := 4 * y / b).
  assert (Hx : 0 < x) by (unfold x; apply Rdiv_lt_0_compat; lra).
  pose proof (sqrt_1_plus_sq_ge_1 x) as Hs.
  assert (Hln : 0 < ln (x + sqrt (1 + x ^ 2))).
  { rewrite <- ln_1. apply ln_increasing; lra. }
  assert (Hinv : 0 < 1 / x) by (apply Rdiv_lt_0_compat; lra).
  apply Rmult_lt_0_compat; [lra|].
  apply Rplus_lt_0_compat; [lra|]. now apply Rmult_lt_0_compat.
Qed.

(** Past its two guards, [Parabolic_Pe_ik] evaluates the perimeter formula
    at a positive depth, where none of its operations fails. *)
Lemma Parabolic_Pe_closed_form (h_Ik h_Ip1k g1 g2 : R) :
  0 < g1 -> 0 < g2 ->
  exists y, 0 < y /\
    y = (let y := mean h_Ik h_Ip1k in
         let y := if Rle_dec y 0 then eps else y in
         if Rgt_dec y g1 then g1 else y) /\
    Parabolic_Pe_ik h_Ik h_Ip1k g1 g2 = Ok (Parabolic_perimeter y g2).
Proof.
  intros Hg1 Hg2. pose proof eps_pos as Heps.
  eexists. split; [|split; [reflexivity|]].
  - cbv zeta. decide_cmp; lra.
  - unfold Parabolic_Pe_ik, Parabolic_perimeter, mean. cbv zeta.
    set (y := if Rgt_dec _ g1 then g1 else _).
    assert (Hy : 0 < y) by (unfold y; decide_cmp; lra).
    set (x := 4 * y / g2).
    assert (Hx : 0 < x) by (unfold x; apply Rdiv_lt_0_compat; lra).
    pose proof (sqrt_1_plus_sq_ge_1 x) as Hs.
    pose proof (pow2_ge_0 x) as Hsq.
    unfold fdiv.
    destruct (Req_dec_T g2 0); [lra|]. cbn [bind]. fold x.
    rewrite np_sqrt_nonneg by lra. cbn [bind].
    destruct (Req_dec_T x 0); [lra|]. cbn [bind].
    unfold np_log. destruct (Rlt_dec 0 (x + sqrt (1 + x ^ 2))); [|lra].
    reflexivity.
Qed.

Lemma Parabolic_Pe_positive (h_Ik h_Ip1k g1 g2 : R) :
  0 < g1 -> 0 < g2 -> positive (Parabolic_Pe_ik h_Ik h_Ip1k g1 g2).
Proof.
  intros Hg1 Hg2.
  destruct (Parabolic_Pe_closed_form h_Ik h_Ip1k g1 g2 Hg1 Hg2)
    as (y & Hy & _ & Heq).
  exists (Parabolic_perimeter y g2). split; [exact Heq|].
  now apply Parabolic_perimeter_pos.
Qed.



Lemma Parabolic_B_dry (h_Ik h_Ip1k g1 g2 : R) :
  0 < g1 -> mean h_Ik h_Ip1k <= 0 -> Parabolic_B_ik h_Ik h_Ip1k g1 g2 = Ok 0.
Proof.
  unfold mean, Parabolic_B_ik, fdiv. intros Hg Hdry. cbv zeta.
  destruct (Req_dec_T g1 0); [lra|]. cbn [bind].
  set (y := if Rlt_dec _ 0 then 0 else _).
  assert (Hy : y = 0) by (unfold y; decide_cmp; lra).
  rewrite Hy. replace (0 / g1) with 0 by (field; lra).
  rewrite np_sqrt_nonneg by lra. simpl. rewrite sqrt_0. f_equal. ring.
Qed.



(** ** Floodplain channel *)

Lemma side_length_ge_slope (m : R) : m <= sqrt (1 + m ^ 2).
Proof.
  pose proof (sqrt_1_plus_sq_ge_1 m) as H1.
  destruct (Rle_dec m 0) as [Hneg | Hpos]; [lra|].
  rewrite <- (sqrt_pow2 m) at 1 by lra.
  apply sqrt_le_1_alt. lra.
Qed.

Lemma Floodplain_Pe_closed_form
      (h_Ik h_Ip1k y_max y_mid b_lower b_upper m_lower m_upper : R) :
  0 <= y_max ->
  Floodplain_Pe_ik h_Ik h_Ip1k y_max y_mid b_lower b_upper m_lower m_upper =
  let y := effective_depth h_Ik h_Ip1k y_max in
  let b_mid := b_lower + 2 * m_lower * y_mid in
  if Rlt_dec y y_mid
  then Ok (b_lower + 2 * y * sqrt (1 + m_lower ^ 2)
           + (0 * (b_upper - b_mid) + 2 * 0 * sqrt (1 + m_upper ^ 2)))
  else Ok (b_lower + 2 * y_mid * sqrt (1 + m_lower ^ 2)
           + (1 * (b_upper - b_mid)
              + 2 * (y - y_mid) * sqrt (1 + m_upper ^ 2))).
Proof.
  intros Hy. rewrite effective_depth_clamped by exact Hy.
  unfold Floodplain_Pe_ik. cbv zeta.
  set (y := if Rgt_dec _ y_max then y_max else _).
  pose proof (pow2_ge_0 m_lower). pose proof (pow2_ge_0 m_upper).
  destruct (Rlt_dec y y_mid); cbn [bind].
  - rewrite !np_sqrt_nonneg by lra. reflexivity.
  - destruct (Rge_dec y y_mid); [|lra]. cbn [bind].
    rewrite !np_sqrt_nonneg by lra. reflexivity.
Qed.

Lemma Floodplain_B_closed_form
      (h_Ik h_Ip1k y_max y_mid b_lower b_upper m_lower m_upper : R) :
  0 <= y_max ->
  Floodplain_B_ik h_Ik h_Ip1k y_max y_mid b_lower b_upper m_lower m_upper =
  let y := effective_depth h_Ik h_Ip1k y_max in
  if Rlt_dec y y_mid
  then Ok (b_lower + 2 * m_lower * y)
  else Ok (b_upper + 2 * m_upper * (y - y_mid)).
Proof.
  intros Hy. rewrite effective_depth_clamped by exact Hy.
  unfold Floodplain_B_ik. cbv zeta.
  set (y := if Rgt_dec _ y_max then y_max else _).
  destruct (Rlt_dec y y_mid); [reflexivity|].
  destruct (Rge_dec y y_mid); [reflexivity|lra].
Qed.

(** *** Limits from below *)

Lemma Ok_inj (A : Type) (a b : A) : Ok a = Ok b -> a = b.
Proof. intros H. now injection H. Qed.

Lemma left_limit_lipschitz (f : evaluator) (a L K : R) :
  0 < a -> 0 <= K ->
  (forall h h', 0 < mean h h' -> mean h h' < a ->
     exists v, f h h' = Ok v /\ Rabs (v - L) <= K * (a - mean h h')) ->
  left_limit f a L.
Proof.
  intros Ha HK Hlip e He.
  assert (HK1 : 0 < K + 1) by lra.
  assert (Hq : 0 < e / (K + 1)) by now apply Rdiv_lt_0_compat.
  exists (Rmin a (e / (K + 1))). split; [now apply Rmin_pos|].
  intros h h' Hlo Hhi.
  pose proof (Rmin_l a (e / (K + 1))) as Hmin_a.
  pose proof (Rmin_r a (e / (K + 1))) as Hmin_e.
  destruct (Hlip h h' ltac:(lra) Hhi) as (v & Hv & Hbound).
  exists v. split; [exact Hv|].
  apply Rle_lt_trans with (1 := Hbound).
  assert (Hgap : a - mean h h' < e / (K + 1)) by lra.
  assert (Hprod : e / (K + 1) * (K + 1) = e) by (field; lra).
  nra.
Qed.

Lemma left_limit_unique (f : evaluator) (a L1 L2 : R) :
  left_limit f a L1 -> left_limit f a L2 -> L1 = L2.
Proof.
  intros H1 H2.
  destruct (Req_dec L1 L2) as [Heq | Hne]; [exact Heq | exfalso].
  assert (He : 0 < Rabs (L1 - L2) / 2).
  { apply Rdiv_lt_0_compat; [|lra]. apply Rabs_pos_lt. lra. }
  destruct (H1 _ He) as (d1 & Hd1 & Hnear1).
  destruct (H2 _ He) as (d2 & Hd2 & Hnear2).
  set (y := a - Rmin d1 d2 / 2).
  pose proof (Rmin_l d1 d2). pose proof (Rmin_r d1 d2).
  pose proof (Rmin_pos d1 d2 Hd1 Hd2).
  assert (Hmean : mean y y = y) by (unfold mean; field).
  destruct (Hnear1 y y) as (v1 & Hv1 & Hb1); try (rewrite Hmean; unfold y; lra).
  destruct (Hnear2 y y) as (v2 & Hv2 & Hb2); try (rewrite Hmean; unfold y; lra).
  rewrite Hv1 in Hv2. apply Ok_inj in Hv2. subst v2.
  pose proof (Rabs_triang (L1 - v1) (v1 - L2)) as Htri.
  replace (L1 - v1 + (v1 - L2)) with (L1 - L2) in Htri by ring.
  rewrite (Rabs_minus_sym L1 v1) in Htri. lra.
Qed.

Lemma Floodplain_depth_below_mid (h h' y_max y_mid : R) :
  y_mid < y_max -> 0 < mean h h' -> mean h h' < y_mid ->
  effective_depth h h' y_max = mean h h' /\
  effective_depth h h' y_max < y_mid.
Proof.
  intros Hmid Hlo Hhi.
  rewrite effective_depth_of_mean by lra. split; [reflexivity | exact Hhi].
Qed.

Lemma Floodplain_A_left_limit (y_max y_mid b_lower b_upper m_lower m_upper : R) :
  0 < y_mid -> y_mid < y_max -> 0 <= b_lower -> 0 <= m_lower ->
  left_limit
    (fun h h' => Floodplain_A_ik h h' y_max y_mid b_lower b_upper m_lower m_upper)
    y_mid (y_mid * (b_lower + m_lower * y_mid)).
Proof.
  intros Hmid Hmax Hb Hm.
  apply left_limit_lipschitz with (K := b_lower + 2 * m_lower * y_mid);
    [exact Hmid | nra |].
  intros h h' Hlo Hhi.
  destruct (Floodplain_depth_below_mid h h' y_max y_mid Hmax Hlo Hhi)
    as [Heq Hlt].
  rewrite Floodplain_A_closed_form by lra. cbv zeta.
  destruct (Rlt_dec (effective_depth h h' y_max) y_mid); [|lra].
  rewrite Heq. set (y := mean h h') in *.
  eexists. split; [reflexivity|].
  assert (Hsq : m_lower * (y * y) <= m_lower * (y_mid * y_mid))
    by (apply Rmult_le_compat_l; nra).
  assert (Hgap : 0 <= m_lower * ((y_mid - y) * (y_mid - y)))
    by (apply Rmult_le_pos; nra).
  rewrite Rabs_left1 by nra. nra.
Qed.

Lemma Floodplain_Pe_left_limit (y_max y_mid b_lower b_upper m_lower m_upper : R) :
  0 < y_mid -> y_mid < y_max ->
  left_limit
    (fun h h' => Floodplain_Pe_ik h h' y_max y_mid b_lower b_upper m_lower m_upper)
    y_mid (b_lower + 2 * y_mid * sqrt (1 + m_lower ^ 2)).
Proof.
  intros Hmid Hmax.
  pose proof (sqrt_1_plus_sq_ge_1 m_lower) as Hs.
  apply left_limit_lipschitz with (K := 2 * sqrt (1 + m_lower ^ 2));
    [exact Hmid | lra |].
  intros h h' Hlo Hhi.
  destruct (Floodplain_depth_below_mid h h' y_max y_mid Hmax Hlo Hhi)
    as [Heq Hlt].
  rewrite Floodplain_Pe_closed_form by lra. cbv zeta.
  destruct (Rlt_dec (effective_depth h h' y_max) y_mid); [|lra].
  rewrite Heq. set (y := mean h h') in *.
  eexists. split; [reflexivity|].
  rewrite Rabs_left1 by nra. nra.
Qed.

Lemma Floodplain_B_left_limit (y_max y_mid b_lower b_upper m_lower m_upper : R) :
  0 < y_mid -> y_mid < y_max -> 0 <= m_lower ->
  left_limit
    (fun h h' => Floodplain_B_ik h h' y_max y_mid b_lower b_upper m_lower m_upper)
    y_mid (b_lower + 2 * m_lower * y_mid).
Proof.
  intros Hmid Hmax Hm.
  apply left_limit_lipschitz with (K := 2 * m_lower); [exact Hmid | lra |].
  intros h h' Hlo Hhi.
  destruct (Floodplain_depth_below_mid h h' y_max y_mid Hmax Hlo Hhi)
    as [Heq Hlt].
  rewrite Floodplain_B_closed_form by lra. cbv zeta.
  destruct (Rlt_dec (effective_depth h h' y_max) y_mid); [|lra].
  rewrite Heq. set (y := mean h h') in *.
  eexists. split; [reflexivity|].
  rewrite Rabs_left1 by nra. nra.
Qed.

Lemma Floodplain_A_at_mid (y_max y_mid b_lower b_upper m_lower m_upper : R) :
  0 < y_mid -> y_mid < y_max ->
  Floodplain_A_ik y_mid y_mid y_max y_mid b_lower b_upper m_lower m_upper =
  Ok (y_mid * (b_lower + m_lower * y_mid)).
Proof.
  intros Hmid Hmax.
  rewrite Floodplain_A_closed_form, effective_depth_same by lra. cbv zeta.
  destruct (Rlt_dec y_mid y_mid); [lra|]. f_equal. ring.
Qed.

Lemma Floodplain_Pe_at_mid (y_max y_mid b_lower b_upper m_lower m_upper : R) :
  0 < y_mid -> y_mid < y_max ->
  Floodplain_Pe_ik y_mid y_mid y_max y_mid b_lower b_upper m_lower m_upper =
  Ok (b_lower + 2 * y_mid * sqrt (1 + m_lower ^ 2)
      + (b_upper - (b_lower + 2 * m_lower * y_mid))).
Proof.
  intros Hmid Hmax.
  rewrite Floodplain_Pe_closed_form, effective_depth_same by lra. cbv zeta.
  destruct (Rlt_dec y_mid y_mid); [lra|]. f_equal. ring.
Qed.

Lemma Floodplain_B_at_mid (y_max y_mid b_lower b_upper m_lower m_upper : R) :
  0 < y_mid -> y_mid < y_max ->
  Floodplain_B_ik y_mid y_mid y_max y_mid b_lower b_upper m_lower m_upper =
  Ok b_upper.
Proof.
  intros Hmid Hmax.
  rewrite Floodplain_B_closed_form, effective_depth_same by lra. cbv zeta.
  destruct (Rlt_dec y_mid y_mid); [lra|]. f_equal. ring.
Qed.

(** Continuity from below of the perimeter and of the top width at the
    transition is the same condition on the parameters: the upper bed is as
    wide as the top of the lower channel. *)
Lemma Floodplain_Pe_continuous_iff
      (y_max y_mid b_lower b_upper m_lower m_upper : R) :
  0 < y_mid -> y_mid < y_max ->
  left_continuous_at
    (fun h h' => Floodplain_Pe_ik h h' y_max y_mid b_lower b_upper m_lower m_upper)
    y_mid <->
  b_upper = b_lower + 2 * m_lower * y_mid.
Proof.
  intros Hmid Hmax. split.
  - intros (L & Hval & Hlim).
    rewrite Floodplain_Pe_at_mid in Hval by assumption. apply Ok_inj in Hval. subst L.
    pose proof (left_limit_unique _ _ _ _ Hlim
                  (Floodplain_Pe_left_limit y_max y_mid b_lower b_upper
                     m_lower m_upper Hmid Hmax)) as Heq.
    lra.
  - intros Heq. eexists. split; [now apply Floodplain_Pe_at_mid|].
    replace (b_lower + 2 * y_mid * sqrt (1 + m_lower ^ 2)
             + (b_upper - (b_lower + 2 * m_lower * y_mid)))
      with (b_lower + 2 * y_mid * sqrt (1 + m_lower ^ 2)) by lra.
    now apply Floodplain_Pe_left_limit.
Qed.

Lemma Floodplain_B_continuous_iff
      (y_max y_mid b_lower b_upper m_lower m_upper : R) :
  0 < y_mid -> y_mid < y_max -> 0 <= m_lower ->
  left_continuous_at
    (fun h h' => Floodplain_B_ik h h' y_max y_mid b_lower b_upper m_lower m_upper)
    y_mid <->
  b_upper = b_lower + 2 * m_lower * y_mid.
Proof.
  intros Hmid Hmax Hm. split.
  - intros (L & Hval & Hlim).
    rewrite Floodplain_B_at_mid in Hval by assumption. apply Ok_inj in Hval. subst L.
    exact (left_limit_unique _ _ _ _ Hlim
             (Floodplain_B_left_limit y_max y_mid b_lower b_upper
                m_lower m_upper Hmid Hmax Hm)).
  - intros Heq. exists b_upper. split; [now apply Floodplain_B_at_mid|].
    rewrite Heq. now apply Floodplain_B_left_limit.
Qed.

(** C1 (amended).  At the transition depth [0 < y_mid < y_max] of a
    floodplain channel with non-negative widths and slopes, the area is
    continuous from below, with limit and value
    [y_mid * (b_lower + m_lower * y_mid)].  The perimeter tends from below to
    [b_lower + 2 * y_mid * sqrt (1 + m_lower ^ 2)] and the top width to
    [b_lower + 2 * m_lower * y_mid]; the values the upper branch returns at
    [y_mid] exceed these two limits by exactly
    [b_upper - (b_lower + 2 * m_lower * y_mid)], the upper top-width piece
    evaluating to [b_upper].  Hence perimeter and top width are continuous at
    [y_mid] exactly when [b_upper = b_lower + 2 * m_lower * y_mid]. *)
Theorem Floodplain_transition
        (y_max y_mid b_lower b_upper m_lower m_upper : R) :
  0 < y_mid -> y_mid < y_max ->
  0 <= b_lower -> 0 <= b_upper -> 0 <= m_lower -> 0 <= m_upper ->
  let b_mid := b_lower + 2 * m_lower * y_mid in
  let A := fun h h' =>
    Floodplain_A_ik h h' y_max y_mid b_lower b_upper m_lower m_upper in
  let Pe := fun h h' =>
    Floodplain_Pe_ik h h' y_max y_mid b_lower b_upper m_lower m_upper in
  let B := fun h h' =>
    Floodplain_B_ik h h' y_max y_mid b_lower b_upper m_lower m_upper in
  left_continuous_at A y_mid /\
  (left_limit A y_mid (y_mid * (b_lower + m_lower * y_mid)) /\
   A y_mid y_mid = Ok (y_mid * (b_lower + m_lower * y_mid))) /\
  (left_limit Pe y_mid (b_lower + 2 * y_mid * sqrt (1 + m_lower ^ 2)) /\
   Pe y_mid y_mid = Ok (b_lower + 2 * y_mid * sqrt (1 + m_lower ^ 2)
                        + (b_upper - b_mid))) /\
  (left_limit B y_mid b_mid /\ B y_mid y_mid = Ok b_upper) /\
  (left_continuous_at Pe y_mid <-> b_upper = b_mid) /\
  (left_continuous_at B y_mid <-> b_upper = b_mid).
Proof.
  intros Hmid Hmax Hbl Hbu Hml Hmu. cbv zeta.
  split.
  { eexists. split; [now apply Floodplain_A_at_mid|].
    now apply Floodplain_A_left_limit. }
  split.
  { split; [now apply Floodplain_A_left_limit | now apply Floodplain_A_at_mid]. }
  split.
  { split; [now apply Floodplain_Pe_left_limit | now apply Floodplain_Pe_at_mid]. }
  split.
  { split; [now apply Floodplain_B_left_limit | now apply Floodplain_B_at_mid]. }
  split.
  - now apply Floodplain_Pe_continuous_iff.
  - now apply Floodplain_B_continuous_iff.
Qed.

Lemma Floodplain_transition_witness :
  left_continuous_at (fun h h' => Floodplain_A_ik h h' 2 1 2 4 1 1) 1 /\
  left_continuous_at (fun h h' => Floodplain_Pe_ik h h' 2 1 2 4 1 1) 1 /\
  left_continuous_at (fun h h' => Floodplain_B_ik h h' 2 1 2 4 1 1) 1 /\
  left_limit (fun h h' => Floodplain_Pe_ik h h' 2 1 2 4 1 1) 1
             (2 + 2 * 1 * sqrt (1 + 1 ^ 2)) /\
  Floodplain_B_ik 1 1 2 1 2 4 1 1 = Ok 4.
Proof.
  pose proof (Floodplain_transition 2 1 2 4 1 1 ltac:(lra) ltac:(lra)
                ltac:(lra) ltac:(lra) ltac:(lra) ltac:(lra))
    as (HA & _ & (HPelim & _) & (_ & HB4) & HPe & HB).
  split; [exact HA|]. split; [apply HPe; lra|].
  split; [apply HB; lra|]. split; [exact HPelim | exact HB4].
Defined.

(** C1, as stated, fails whenever the upper bed is not as wide as the top of
    the lower channel.  With [y_mid = 1], [b_lower = 2], [m_lower = 1] and
    [b_upper = 10] the lower top-width piece tends to 4 while the upper piece
    is 10 at [y_mid], and the perimeter jumps by the same 6. *)
Lemma Floodplain_transition_jump :
  Floodplain_B_ik 1 1 2 1 2 10 1 1 = Ok 10 /\
  10 <> 2 + 2 * 1 * 1 /\
  ~ left_continuous_at (fun h h' => Floodplain_B_ik h h' 2 1 2 10 1 1) 1 /\
  ~ left_continuous_at (fun h h' => Floodplain_Pe_ik h h' 2 1 2 10 1 1) 1.
Proof.
  split; [apply Floodplain_B_at_mid; lra|].
  split; [lra|].
  split; intros Hcont.
  - apply Floodplain_B_continuous_iff in Hcont; lra.
  - apply Floodplain_Pe_continuous_iff in Hcont; lra.
Qed.

(** ** The effective depth *)

Lemma effective_depth_idempotent (h_Ik h_Ip1k y_max : R) :
  0 <= y_max ->
  effective_depth (effective_depth h_Ik h_Ip1k y_max)
                  (effective_depth h_Ik h_Ip1k y_max) y_max =
  effective_depth h_Ik h_Ip1k y_max.
Proof.
  intros Hy. apply effective_depth_same. now apply effective_depth_range.
Qed.

Lemma through_closed_form (f : evaluator) (G : R -> result R) (y_max : R) :
  0 <= y_max ->
  (forall h h', f h h' = G (effective_depth h h' y_max)) ->
  through_effective_depth f y_max.
Proof.
  intros Hy Hform h h'.
  now rewrite !Hform, effective_depth_idempotent.
Qed.

Ltac through_by_cases :=
  intros h h'; rewrite effective_depth_clamped by lra;
  cbv zeta; decide_cmp; try reflexivity; try (exfalso; lra); f_equal; lra.

Ltac through_with closed_form :=
  intros h h'; cbv beta; rewrite !closed_form by lra; cbv zeta;
  rewrite !effective_depth_idempotent by lra; reflexivity.

Lemma Parabolic_Pe_through (g1 g2 : R) :
  0 < g1 -> through_effective_depth (fun h h' => Parabolic_Pe_ik h h' g1 g2) g1.
Proof.
  intros Hg h h'. pose proof eps_pos as Heps.
  unfold Parabolic_Pe_ik. cbv zeta.
  set (e := effective_depth h h' g1).
  replace ((e + e) / 2) with e by field.
  set (yL := if Rgt_dec _ g1 then g1 else _).
  set (yR := if Rgt_dec _ g1 then g1 else _).
  assert (Heq : yL = yR).
  { unfold yL, yR, e. rewrite effective_depth_clamped by lra.
    cbv zeta. decide_cmp; lra. }
  now rewrite Heq.
Qed.

(** Every area, perimeter and top-width function other than
    [Parabolic_B_ik] reads the junction depths only through the effective
    depth, whatever the other shape parameters are. *)
Theorem other_evaluators_through_effective_depth (g1 g2 g3 g4 g5 g6 : R) :
  0 < g1 ->
  (through_effective_depth (fun h h' => Circular_A_ik h h' g1) g1 /\
   through_effective_depth (fun h h' => Circular_Pe_ik h h' g1) g1 /\
   through_effective_depth (fun h h' => Circular_B_ik h h' g1 g2) g1) /\
  (through_effective_depth (fun h h' => Rect_Closed_A_ik h h' g1 g2) g1 /\
   through_effective_depth (fun h h' => Rect_Closed_Pe_ik h h' g1 g2) g1 /\
   through_effective_depth (fun h h' => Rect_Closed_B_ik h h' g1 g2 g3) g1) /\
  (through_effective_depth (fun h h' => Rect_Open_A_ik h h' g1 g2) g1 /\
   through_effective_depth (fun h h' => Rect_Open_Pe_ik h h' g1 g2) g1 /\
   through_effective_depth (fun h h' => Rect_Open_B_ik h h' g1 g2) g1) /\
  (through_effective_depth (fun h h' => Triangular_A_ik h h' g1 g2) g1 /\
   through_effective_depth (fun h h' => Triangular_Pe_ik h h' g1 g2) g1 /\
   through_effective_depth (fun h h' => Triangular_B_ik h h' g1 g2) g1) /\
  (through_effective_depth (fun h h' => Trapezoidal_A_ik h h' g1 g2 g3) g1 /\
   through_effective_depth (fun h h' => Trapezoidal_Pe_ik h h' g1 g2 g3) g1 /\
   through_effective_depth (fun h h' => Trapezoidal_B_ik h h' g1 g2 g3) g1) /\
  (through_effective_depth (fun h h' => Parabolic_A_ik h h' g1 g2) g1 /\
   through_effective_depth (fun h h' => Parabolic_Pe_ik h h' g1 g2) g1) /\
  (through_effective_depth (fun h h' => Elliptical_A_ik h h' g1 g2) g1 /\
   through_effective_depth (fun h h' => Elliptical_B_ik h h' g1 g2) g1) /\
  (through_effective_depth (fun h h' => Wide_A_ik h h' g1 g2) g1 /\
   through_effective_depth (fun h h' => Wide_Pe_ik h h' g1 g2) g1 /\
   through_effective_depth (fun h h' => Wide_B_ik h h' g1 g2) g1) /\
  (through_effective_depth (fun h h' => Force_Main_A_ik h h' g1 g2) g1 /\
   through_effective_depth (fun h h' => Force_Main_Pe_ik h h' g1 g2) g1 /\
   through_effective_depth (fun h h' => Force_Main_B_ik h h' g1 g2) g1) /\
  (through_effective_depth
     (fun h h' => Floodplain_A_ik h h' g1 g2 g3 g4 g5 g6) g1 /\
   through_effective_depth
     (fun h h' => Floodplain_Pe_ik h h' g1 g2 g3 g4 g5 g6) g1 /\
   through_effective_depth
     (fun h h' => Floodplain_B_ik h h' g1 g2 g3 g4 g5 g6) g1).
Proof.
  intros Hg. assert (Hg0 : 0 <= g1) by lra.
  repeat split; try (intros h h'; reflexivity).
  - through_with Circular_A_closed_form.
  - through_with Circular_Pe_closed_form.
  - through_with Circular_B_closed_form.
  - apply through_closed_form with (G := fun y => Ok (y * g2)); [exact Hg0|].
    unfold Rect_Closed_A_ik. through_by_cases.
  - apply through_closed_form with (G := fun y => Ok (g2 + 2 * y)); [exact Hg0|].
    unfold Rect_Closed_Pe_ik. through_by_cases.
  - apply through_closed_form
      with (G := fun y => if Rlt_dec y g1 then Ok g2 else Ok (g3 * g2));
      [exact Hg0|].
    unfold Rect_Closed_B_ik. through_by_cases.
  - apply through_closed_form with (G := fun y => Ok (y * g2)); [exact Hg0|].
    unfold Rect_Open_A_ik. through_by_cases.
  - apply through_closed_form with (G := fun y => Ok (g2 + 2 * y)); [exact Hg0|].
    unfold Rect_Open_Pe_ik. through_by_cases.
  - apply through_closed_form with (G := fun y => Ok (g2 * y ^ 2)); [exact Hg0|].
    unfold Triangular_A_ik. through_by_cases.
  - apply through_closed_form
      with (G := fun y => s <- np_sqrt (1 + g2 ^ 2) ;; Ok (2 * y * s));
      [exact Hg0|].
    unfold Triangular_Pe_ik. through_by_cases.
  - apply through_closed_form
      with (G := fun y => if Rlt_dec y g1 then Ok (2 * g2 * y)
                          else Ok (2 * g2 * g1));
      [exact Hg0|].
    unfold Triangular_B_ik. through_by_cases.
  - apply through_closed_form with (G := fun y => Ok (y * (g2 + g3 * y)));
      [exact Hg0|].
    unfold Trapezoidal_A_ik. through_by_cases.
  - apply through_closed_form
      with (G := fun y => s <- np_sqrt (1 + g3 ^ 2) ;; Ok (g2 + 2 * y * s));
      [exact Hg0|].
    unfold Trapezoidal_Pe_ik. through_by_cases.
  - apply through_closed_form
      with (G := fun y => if Rlt_dec y g1 then Ok (g2 + 2 * g3 * y)
                          else Ok (g2 + 2 * g3 * g1));
      [exact Hg0|].
    unfold Trapezoidal_B_ik. through_by_cases.
  - apply through_closed_form with (G := fun y => Ok (2 * g2 * y / 3));
      [exact Hg0|].
    unfold Parabolic_A_ik. through_by_cases.
  - now apply Parabolic_Pe_through.
  - through_with Elliptical_A_closed_form.
  - through_with Elliptical_B_closed_form.
  - apply through_closed_form with (G := fun y => Ok (y * g2)); [exact Hg0|].
    unfold Wide_A_ik. through_by_cases.
  - through_with Floodplain_A_closed_form.
  - through_with Floodplain_Pe_closed_form.
  - through_with Floodplain_B_closed_form.
Qed.

Lemma other_evaluators_through_effective_depth_witness :
  through_effective_depth (fun h h' => Circular_B_ik h h' 1 (1 / 1000)) 1 /\
  through_effective_depth (fun h h' => Parabolic_Pe_ik h h' 1 1) 1.
Proof.
  pose proof (other_evaluators_through_effective_depth 1 (1 / 1000) 1 1 1 1
                ltac:(lra))
    as ((_ & _ & HB) & _).
  pose proof (other_evaluators_through_effective_depth 1 1 1 1 1 1 ltac:(lra))
    as (_ & _ & _ & _ & _ & (_ & HPe) & _).
  split; [exact HB | exact HPe].
Defined.

Lemma Parabolic_B_closed_form (h_Ik h_Ip1k g1 g2 : R) :
  0 < g1 -> 0 <= mean h_Ik h_Ip1k ->
  Parabolic_B_ik h_Ik h_Ip1k g1 g2 = Ok (g2 * sqrt (mean h_Ik h_Ip1k / g1)).
Proof.
  intros Hg Hy. unfold Parabolic_B_ik, fdiv, mean in *. cbv zeta.
  destruct (Req_dec_T g1 0); [lra|]. cbn [bind].
  destruct (Rlt_dec ((h_Ik + h_Ip1k) / 2) 0); [lra|].
  rewrite np_sqrt_nonneg; [reflexivity|].
  apply Rmult_le_pos; [lra|]. apply Rlt_le, Rinv_0_lt_compat. lra.
Qed.

(** C2.  [Parabolic_B_ik] does not clamp the mean depth at [y_max]: in a
    channel of height 1 and width 1 the mean depth 4 has effective depth 1,
    yet the top width returned is 2, not the top width 1 returned at depth
    1. *)
Theorem Parabolic_B_above_full_depth :
  effective_depth 4 4 1 = 1 /\
  Parabolic_B_ik 4 4 1 1 = Ok 2 /\
  Parabolic_B_ik 1 1 1 1 = Ok 1 /\
  ~ through_effective_depth (fun h h' => Parabolic_B_ik h h' 1 1) 1.
Proof.
  assert (He : effective_depth 4 4 1 = 1).
  { unfold effective_depth, clamp, mean, Rmax, Rmin. decide_cmp; lra. }
  assert (H4 : Parabolic_B_ik 4 4 1 1 = Ok 2).
  { rewrite Parabolic_B_closed_form by (unfold mean; lra).
    replace (mean 4 4 / 1) with (2 * 2) by (unfold mean; field).
    rewrite sqrt_square by lra. f_equal. ring. }
  assert (H1 : Parabolic_B_ik 1 1 1 1 = Ok 1).
  { rewrite Parabolic_B_closed_form by (unfold mean; lra).
    replace (mean 1 1 / 1) with 1 by (unfold mean; field).
    rewrite sqrt_1. f_equal. ring. }
  repeat split; try assumption.
  intros Hthrough. specialize (Hthrough 4 4). cbv beta in Hthrough.
  rewrite He, H4, H1 in Hthrough. apply Ok_inj in Hthrough. lra.
Qed.

(** ** Non-negative outputs of the shapes with a perimeter function *)

Lemma nonneg_Ok (v : R) : 0 <= v -> nonneg (Ok v).
Proof. intros Hv. now exists v. Qed.

Lemma positive_nonneg (r : result R) : positive r -> nonneg r.
Proof. intros (v & Hv & Hpos). exists v. split; [exact Hv | lra]. Qed.

Lemma radius_of_nonneg (R_ik : R -> R -> result R) (A : result R) (Pe : R) :
  (forall a p, radius_rule a p (R_ik a p)) ->
  nonneg A -> nonneg (radius_of R_ik A (Ok Pe)).
Proof.
  intros Hrule (a & -> & Ha). unfold radius_of. cbn [bind].
  destruct (Hrule a Pe) as [Hwet | Hdry].
  - apply nonneg_Ok. apply Rmult_le_pos; [exact Ha|].
    apply Rlt_le, Rinv_0_lt_compat. lra.
  - apply nonneg_Ok. lra.
Qed.

Lemma radius_of_nonneg_pair (R_ik : R -> R -> result R) (A Pe : result R) :
  (forall a p, radius_rule a p (R_ik a p)) ->
  nonneg A -> nonneg Pe -> nonneg (radius_of R_ik A Pe).
Proof.
  intros Hrule HA (p & -> & _). now apply radius_of_nonneg.
Qed.

Lemma Circular_theta_range (y d : R) : 0 <= Circular_theta y d <= PI.
Proof. apply acos_bound. Qed.

Lemma Circular_A_nonneg (h h' d : R) :
  0 < d -> nonneg (Circular_A_ik h h' d).
Proof.
  intros Hd. rewrite Circular_A_closed_form by exact Hd. apply nonneg_Ok.
  apply Rmult_le_pos; [apply pow2_ge_0|].
  apply segment_nonneg, Circular_theta_range.
Qed.

Lemma Circular_Pe_nonneg (h h' d : R) :
  0 < d -> nonneg (Circular_Pe_ik h h' d).
Proof.
  intros Hd. rewrite Circular_Pe_closed_form by exact Hd. apply nonneg_Ok.
  pose proof (Circular_theta_range (effective_depth h h' d) d).
  apply Rmult_le_pos; lra.
Qed.

Lemma Circular_B_nonneg (h h' d pslot : R) :
  0 < d -> 0 <= pslot -> nonneg (Circular_B_ik h h' d pslot).
Proof.
  intros Hd Hp. rewrite Circular_B_closed_form by exact Hd.
  destruct (Rlt_dec (effective_depth h h' d) d); apply nonneg_Ok.
  - pose proof (Circular_theta_range (effective_depth h h' d) d) as [H0 HPI].
    pose proof (sin_ge_0 _ H0 HPI). apply Rmult_le_pos; lra.
  - apply Rmult_le_pos; lra.
Qed.

Lemma Elliptical_arcsin_arg_in_domain (h h' g1 : R) :
  0 < g1 ->
  exists q, Elliptical_arcsin_arg h h' g1 = Ok q /\ -1 <= q <= 1.
Proof.
  intros Hg. rewrite Elliptical_arcsin_arg_closed_form by exact Hg.
  eexists. split; [reflexivity|].
  apply Elliptical_ratio; [exact Hg|]. apply effective_depth_range. lra.
Qed.

Lemma Parabolic_B_nonneg (h h' g1 g2 : R) :
  0 < g1 -> 0 <= g2 -> nonneg (Parabolic_B_ik h h' g1 g2).
Proof.
  intros Hg1 Hg2.
  destruct (Rle_dec (mean h h') 0) as [Hdry | Hwet].
  - rewrite Parabolic_B_dry by assumption. apply nonneg_Ok. lra.
  - rewrite Parabolic_B_closed_form by lra. apply nonneg_Ok.
    apply Rmult_le_pos; [exact Hg2 | apply sqrt_pos].
Qed.

Lemma Floodplain_A_nonneg (h h' y_max y_mid b_lower b_upper m_lower m_upper : R) :
  0 <= y_max -> 0 <= y_mid ->
  0 <= b_lower -> 0 <= b_upper -> 0 <= m_lower -> 0 <= m_upper ->
  nonneg (Floodplain_A_ik h h' y_max y_mid b_lower b_upper m_lower m_upper).
Proof.
  intros Hmax Hmid Hbl Hbu Hml Hmu.
  rewrite Floodplain_A_closed_form by exact Hmax. cbv zeta.
  pose proof (effective_depth_range h h' y_max Hmax) as [Hy0 Hy1].
  set (y := effective_depth h h' y_max) in *.
  destruct (Rlt_dec y y_mid); apply nonneg_Ok.
  - assert (0 <= m_lower * y) by now apply Rmult_le_pos.
    assert (0 <= y * (b_lower + m_lower * y)) by (apply Rmult_le_pos; lra).
    lra.
  - assert (0 <= m_lower * y_mid) by now apply Rmult_le_pos.
    assert (0 <= m_upper * (y - y_mid)) by (apply Rmult_le_pos; lra).
    assert (0 <= y_mid * (b_lower + m_lower * y_mid))
      by (apply Rmult_le_pos; lra).
    assert (0 <= (y - y_mid) * (b_upper + m_upper * (y - y_mid)))
      by (apply Rmult_le_pos; lra).
    lra.
Qed.

Lemma Floodplain_Pe_nonneg (h h' y_max y_mid b_lower b_upper m_lower m_upper : R) :
  0 <= y_max -> 0 <= y_mid -> 0 <= b_lower -> 0 <= b_upper ->
  nonneg (Floodplain_Pe_ik h h' y_max y_mid b_lower b_upper m_lower m_upper).
Proof.
  intros Hmax Hmid Hbl Hbu.
  rewrite Floodplain_Pe_closed_form by exact Hmax. cbv zeta.
  pose proof (effective_depth_range h h' y_max Hmax) as [Hy0 Hy1].
  set (y := effective_depth h h' y_max) in *.
  pose proof (sqrt_1_plus_sq_ge_1 m_lower) as Hsl.
  pose proof (sqrt_1_plus_sq_ge_1 m_upper) as Hsu.
  pose proof (side_length_ge_slope m_lower) as Hside.
  destruct (Rlt_dec y y_mid); apply nonneg_Ok.
  - assert (0 <= y * sqrt (1 + m_lower ^ 2)) by (apply Rmult_le_pos; lra).
    lra.
  - assert (0 <= y_mid * (sqrt (1 + m_lower ^ 2) - m_lower))
      by (apply Rmult_le_pos; lra).
    assert (0 <= (y - y_mid) * sqrt (1 + m_upper ^ 2))
      by (apply Rmult_le_pos; lra).
    lra.
Qed.

Lemma Floodplain_B_nonneg (h h' y_max y_mid b_lower b_upper m_lower m_upper : R) :
  0 <= y_max -> 0 <= b_lower -> 0 <= b_upper -> 0 <= m_lower -> 0 <= m_upper ->
  nonneg (Floodplain_B_ik h h' y_max y_mid b_lower b_upper m_lower m_upper).
Proof.
  intros Hmax Hbl Hbu Hml Hmu.
  rewrite Floodplain_B_closed_form by exact Hmax. cbv zeta.
  pose proof (effective_depth_range h h' y_max Hmax) as [Hy0 Hy1].
  set (y := effective_depth h h' y_max) in *.
  destruct (Rlt_dec y y_mid); apply nonneg_Ok.
  - assert (0 <= m_lower * y) by now apply Rmult_le_pos. lra.
  - assert (0 <= m_upper * (y - y_mid)) by (apply Rmult_le_pos; lra). lra.
Qed.

Lemma outputs_nonneg_intro
      (A Pe : result R) (R_ik : R -> R -> result R) (B : result R) :
  (forall a p, radius_rule a p (R_ik a p)) ->
  nonneg A -> nonneg Pe -> nonneg B -> outputs_nonneg A Pe R_ik B.
Proof.
  intros Hrule HA HPe HB. repeat split; try assumption.
  now apply radius_of_nonneg_pair.
Qed.

Ltac nonneg_by_cases :=
  cbv zeta;
  try (rewrite np_sqrt_nonneg
        by (match goal with
            | |- 0 <= 1 + ?m ^ 2 => pose proof (pow2_ge_0 m); lra
            end);
       cbn [bind]);
  decide_cmp; apply nonneg_Ok;
  repeat apply Rmult_le_pos; try apply sqrt_pos; try lra.

Section Positive_parameters.

Variables g1 g2 g3 g4 g5 g6 : R.
Hypothesis (Hg1 : 0 < g1) (Hg2 : 0 < g2) (Hg3 : 0 < g3).
Hypothesis (Hg4 : 0 < g4) (Hg5 : 0 < g5) (Hg6 : 0 < g6).
Variables h h' : R.

Lemma Circular_outputs_nonneg :
  outputs_nonneg (Circular_A_ik h h' g1) (Circular_Pe_ik h h' g1)
                 Circular_R_ik (Circular_B_ik h h' g1 g2).
Proof.
  apply outputs_nonneg_intro.
  - intros a p. apply radius_rule_sound.
  - now apply Circular_A_nonneg.
  - now apply Circular_Pe_nonneg.
  - apply Circular_B_nonneg; lra.
Qed.

Lemma Rect_Closed_outputs_nonneg :
  outputs_nonneg (Rect_Closed_A_ik h h' g1 g2) (Rect_Closed_Pe_ik h h' g1 g2)
                 Rect_Closed_R_ik (Rect_Closed_B_ik h h' g1 g2 g3).
Proof.
  apply outputs_nonneg_intro.
  - intros a p. apply radius_rule_sound.
  - unfold Rect_Closed_A_ik. nonneg_by_cases.
  - unfold Rect_Closed_Pe_ik. nonneg_by_cases.
  - unfold Rect_Closed_B_ik. nonneg_by_cases.
Qed.

Lemma Rect_Open_outputs_nonneg :
  outputs_nonneg (Rect_Open_A_ik h h' g1 g2) (Rect_Open_Pe_ik h h' g1 g2)
                 Rect_Open_R_ik (Rect_Open_B_ik h h' g1 g2).
Proof.
  apply outputs_nonneg_intro.
  - intros a p. apply radius_rule_sound.
  - unfold Rect_Open_A_ik. nonneg_by_cases.
  - unfold Rect_Open_Pe_ik. nonneg_by_cases.
  - unfold Rect_Open_B_ik. nonneg_by_cases.
Qed.

Lemma Triangular_outputs_nonneg :
  outputs_nonneg (Triangular_A_ik h h' g1 g2) (Triangular_Pe_ik h h' g1 g2)
                 Triangular_R_ik (Triangular_B_ik h h' g1 g2).
Proof.
  apply outputs_nonneg_intro.
  - intros a p. apply radius_rule_sound.
  - unfold Triangular_A_ik. nonneg_by_cases; apply pow2_ge_0.
  - unfold Triangular_Pe_ik. nonneg_by_cases.
  - unfold Triangular_B_ik. nonneg_by_cases.
Qed.

Lemma Trapezoidal_outputs_nonneg :
  outputs_nonneg (Trapezoidal_A_ik h h' g1 g2 g3)
                 (Trapezoidal_Pe_ik h h' g1 g2 g3)
                 Trapezoidal_R_ik (Trapezoidal_B_ik h h' g1 g2 g3).
Proof.
  apply outputs_nonneg_intro.
  - intros a p. apply radius_rule_sound.
  - unfold Trapezoidal_A_ik. nonneg_by_cases; nra.
  - unfold Trapezoidal_Pe_ik. nonneg_by_cases;
      apply Rplus_le_le_0_compat; try lra;
      repeat apply Rmult_le_pos; try apply sqrt_pos; lra.
  - unfold Trapezoidal_B_ik. nonneg_by_cases; nra.
Qed.

Lemma Parabolic_outputs_nonneg :
  outputs_nonneg (Parabolic_A_ik h h' g1 g2) (Parabolic_Pe_ik h h' g1 g2)
                 Parabolic_R_ik (Parabolic_B_ik h h' g1 g2).
Proof.
  apply outputs_nonneg_intro.
  - intros a p. apply radius_rule_sound.
  - unfold Parabolic_A_ik. nonneg_by_cases; nra.
  - now apply positive_nonneg, Parabolic_Pe_positive.
  - apply Parabolic_B_nonneg; lra.
Qed.

Lemma Wide_outputs_nonneg :
  outputs_nonneg (Wide_A_ik h h' g1 g2) (Wide_Pe_ik h h' g1 g2)
                 Wide_R_ik (Wide_B_ik h h' g1 g2).
Proof.
  apply outputs_nonneg_intro.
  - intros a p. apply radius_rule_sound.
  - unfold Wide_A_ik. nonneg_by_cases.
  - unfold Wide_Pe_ik. nonneg_by_cases.
  - unfold Wide_B_ik. nonneg_by_cases.
Qed.

Lemma Force_Main_outputs_nonneg :
  outputs_nonneg (Force_Main_A_ik h h' g1 g2) (Force_Main_Pe_ik h h' g1 g2)
                 Force_Main_R_ik (Force_Main_B_ik h h' g1 g2).
Proof.
  pose proof PI_RGT_0 as Hpi.
  apply outputs_nonneg_intro.
  - intros a p. apply radius_rule_sound.
  - apply nonneg_Ok. apply Rmult_le_pos; [lra | apply pow2_ge_0].
  - apply nonneg_Ok. apply Rmult_le_pos; lra.
  - unfold Force_Main_B_ik. nonneg_by_cases.
Qed.

Lemma Floodplain_outputs_nonneg :
  outputs_nonneg (Floodplain_A_ik h h' g1 g2 g3 g4 g5 g6)
                 (Floodplain_Pe_ik h h' g1 g2 g3 g4 g5 g6)
                 Floodplain_R_ik (Floodplain_B_ik h h' g1 g2 g3 g4 g5 g6).
Proof.
  apply outputs_nonneg_intro.
  - intros a p. apply radius_rule_sound.
  - apply Floodplain_A_nonneg; lra.
  - apply Floodplain_Pe_nonneg; lra.
  - apply Floodplain_B_nonneg; lra.
Qed.

End Positive_parameters.

(** With positive shape parameters and arbitrary junction depths, the area,
    the perimeter, the hydraulic radius computed from the two, and the top
    width of each of the nine shapes that have a perimeter function are real
    numbers [>= 0]: no division by zero and no operation outside its domain
    occurs.  For the elliptical shape, which has no perimeter function, the
    operand of the arcsine in its area and top width lies in [[-1, 1]]. *)
Theorem outputs_nonneg_with_perimeter (g1 g2 g3 g4 g5 g6 h_Ik h_Ip1k : R) :
  0 < g1 -> 0 < g2 -> 0 < g3 -> 0 < g4 -> 0 < g5 -> 0 < g6 ->
  outputs_nonneg (Circular_A_ik h_Ik h_Ip1k g1) (Circular_Pe_ik h_Ik h_Ip1k g1)
                 Circular_R_ik (Circular_B_ik h_Ik h_Ip1k g1 g2) /\
  outputs_nonneg (Rect_Closed_A_ik h_Ik h_Ip1k g1 g2)
                 (Rect_Closed_Pe_ik h_Ik h_Ip1k g1 g2)
                 Rect_Closed_R_ik (Rect_Closed_B_ik h_Ik h_Ip1k g1 g2 g3) /\
  outputs_nonneg (Rect_Open_A_ik h_Ik h_Ip1k g1 g2)
                 (Rect_Open_Pe_ik h_Ik h_Ip1k g1 g2)
                 Rect_Open_R_ik (Rect_Open_B_ik h_Ik h_Ip1k g1 g2) /\
  outputs_nonneg (Triangular_A_ik h_Ik h_Ip1k g1 g2)
                 (Triangular_Pe_ik h_Ik h_Ip1k g1 g2)
                 Triangular_R_ik (Triangular_B_ik h_Ik h_Ip1k g1 g2) /\
  outputs_nonneg (Trapezoidal_A_ik h_Ik h_Ip1k g1 g2 g3)
                 (Trapezoidal_Pe_ik h_Ik h_Ip1k g1 g2 g3)
                 Trapezoidal_R_ik (Trapezoidal_B_ik h_Ik h_Ip1k g1 g2 g3) /\
  outputs_nonneg (Parabolic_A_ik h_Ik h_Ip1k g1 g2)
                 (Parabolic_Pe_ik h_Ik h_Ip1k g1 g2)
                 Parabolic_R_ik (Parabolic_B_ik h_Ik h_Ip1k g1 g2) /\
  outputs_nonneg (Wide_A_ik h_Ik h_Ip1k g1 g2) (Wide_Pe_ik h_Ik h_Ip1k g1 g2)
                 Wide_R_ik (Wide_B_ik h_Ik h_Ip1k g1 g2) /\
  outputs_nonneg (Force_Main_A_ik h_Ik h_Ip1k g1 g2)
                 (Force_Main_Pe_ik h_Ik h_Ip1k g1 g2)
                 Force_Main_R_ik (Force_Main_B_ik h_Ik h_Ip1k g1 g2) /\
  outputs_nonneg (Floodplain_A_ik h_Ik h_Ip1k g1 g2 g3 g4 g5 g6)
                 (Floodplain_Pe_ik h_Ik h_Ip1k g1 g2 g3 g4 g5 g6)
                 Floodplain_R_ik
                 (Floodplain_B_ik h_Ik h_Ip1k g1 g2 g3 g4 g5 g6) /\
  (exists q, Elliptical_arcsin_arg h_Ik h_Ip1k g1 = Ok q /\ -1 <= q <= 1).
Proof.
  intros Hg1 Hg2 Hg3 Hg4 Hg5 Hg6.
  split; [now apply Circular_outputs_nonneg|].
  split; [now apply Rect_Closed_outputs_nonneg|].
  split; [now apply Rect_Open_outputs_nonneg|].
  split; [now apply Triangular_outputs_nonneg|].
  split; [now apply Trapezoidal_outputs_nonneg|].
  split; [now apply Parabolic_outputs_nonneg|].
  split; [now apply Wide_outputs_nonneg|].
  split; [now apply Force_Main_outputs_nonneg|].
  split; [now apply Floodplain_outputs_nonneg|].
  now apply Elliptical_arcsin_arg_in_domain.
Qed.

Lemma outputs_nonneg_with_perimeter_witness :
  outputs_nonneg (Circular_A_ik (-3) 9 1) (Circular_Pe_ik (-3) 9 1)
                 Circular_R_ik (Circular_B_ik (-3) 9 1 (1 / 1000)) /\
  (exists q, Elliptical_arcsin_arg (-3) 9 1 = Ok q /\ -1 <= q <= 1).
Proof.
  pose proof (outputs_nonneg_with_perimeter 1 (1 / 1000) 1 1 1 1 (-3) 9
                ltac:(lra) ltac:(lra) ltac:(lra) ltac:(lra) ltac:(lra)
                ltac:(lra))
    as (Hcirc & _ & _ & _ & _ & _ & _ & _ & _ & Harg).
  split; [exact Hcirc | exact Harg].
Defined.

(** ** The area of the empty elliptical conduit *)

Lemma np_pi_close : np_pi + 12246 / 10 ^ 20 < PI < np_pi + 12247 / 10 ^ 20.
Proof.
  pose proof (PI_2_3_7_ineq 10) as H.
  unfold PI_2_3_7_tg, tg_alt, Ratan_seq, np_pi in *. simpl in H. lra.
Qed.

Lemma sin_small_lower (x : R) : 0 <= x <= 1 -> x - x ^ 3 / 6 <= sin x.
Proof.
  intros Hx.
  pose proof PI_bounds as HPI.
  destruct (SIN x ltac:(lra) ltac:(lra)) as [Hlb _].
  unfold sin_lb, sin_approx, sin_term in Hlb. simpl in Hlb.
  assert (H5 : 0 <= x ^ 5) by (apply pow_le; lra).
  assert (H2 : x ^ 2 <= 1) by nra.
  assert (H7 : x ^ 7 <= x ^ 5).
  { replace (x ^ 7) with (x ^ 5 * x ^ 2) by ring. nra. }
  simpl in H5, H7. lra.
Qed.

Lemma Elliptical_A_through_theta (h_Ik h_Ip1k g1 g2 : R) :
  0 < g1 ->
  Elliptical_A_ik h_Ik h_Ip1k g1 g2 =
  Ok (Elliptical_A_of_theta PI (g2 / 2) (g1 / 2)
        (Elliptical_theta (effective_depth h_Ik h_Ip1k g1) g1)).
Proof.
  intros Hg. rewrite Elliptical_A_closed_form by exact Hg. reflexivity.
Qed.

Lemma Elliptical_A_of_theta_double_angle (pi a b : R) :
  Elliptical_A_of_theta pi a b (- (pi / 2)) = - (a * b / 2 * sin pi).
Proof.
  unfold Elliptical_A_of_theta. cbv zeta.
  rewrite cos_neg, sin_neg.
  replace (sin pi) with (sin (2 * (pi / 2))) by (f_equal; field).
  rewrite sin_2a. field.
Qed.

(** C3.  The area [Elliptical_A_ik 0 0 1 2] of the empty elliptical conduit
    of height 1 and width 2 is [A_a + A_b] at the angle [arcsin (-1)].  Over
    the reals that angle is [- (PI / 2)].  In the program [np.pi] is the
    double [np_pi], and the angle is the double [- (np_pi / 2)], which is
    within half a unit in the last place of [- (PI / 2)].  At that angle
    [A_a] is 0 and [A_b] is [- (sin np_pi / 4)], which is negative because
    [np_pi] lies below [PI]: the value is between [-3.0618e-17] and
    [-3.0612e-17], so the area of the empty conduit is not [>= 0]. *)
Theorem Elliptical_A_negative_when_empty :
  Elliptical_A_ik 0 0 1 2
  = Ok (Elliptical_A_of_theta PI (2 / 2) (1 / 2)
          (Elliptical_theta (effective_depth 0 0 1) 1)) /\
  Elliptical_theta (effective_depth 0 0 1) 1 = - (PI / 2) /\
  Rabs (PI / 2 - np_pi / 2) < / 2 ^ 53 /\
  Elliptical_A_of_theta np_pi (2 / 2) (1 / 2) (- (np_pi / 2))
  = - (sin np_pi / 4) /\
  - (30618 / 10 ^ 21)
  < Elliptical_A_of_theta np_pi (2 / 2) (1 / 2) (- (np_pi / 2))
  < - (30612 / 10 ^ 21).
Proof.
  pose proof np_pi_close as [Hlo Hhi].
  split; [apply Elliptical_A_through_theta; lra|].
  split.
  { rewrite effective_depth_zero by lra. unfold Elliptical_theta.
    replace ((0 - 1 / 2) / (1 / 2)) with (-1) by field. apply asin_minus_1. }
  split.
  { rewrite Rabs_pos_eq by lra. lra. }
  rewrite Elliptical_A_of_theta_double_angle.
  split; [field|].
  set (delta := PI - np_pi).
  assert (Hdelta : 12246 / 10 ^ 20 < delta < 12247 / 10 ^ 20)
    by (unfold delta; lra).
  replace (sin np_pi) with (sin delta).
  2:{ unfold delta. replace (PI - np_pi) with (- np_pi + PI) by ring.
      rewrite neg_sin, sin_neg. ring. }
  assert (Hsmall : delta < 1) by lra.
  pose proof (sin_lt_x delta ltac:(lra)) as Hup.
  pose proof (sin_small_lower delta ltac:(lra)) as Hlow.
  assert (Hcube : delta ^ 3 <= delta / 10 ^ 6).
  { assert (delta ^ 2 <= / 10 ^ 6) by nra.
    replace (delta ^ 3) with (delta * delta ^ 2) by ring.
    unfold Rdiv. apply Rmult_le_compat_l; lra. }
  lra.
Qed.

(** * Further properties of the evaluators *)

(** ** When an evaluator fails *)

Lemma returns_Ok (v : R) : returns (Ok v).
Proof. now exists v. Qed.

Lemma np_arccos_in_range (x : R) : -1 <= x <= 1 -> np_arccos x = Ok (acos x).
Proof.
  intros [Hlo Hhi]. unfold np_arccos.
  destruct (Rle_dec (-1) x); [|lra]. destruct (Rle_dec x 1); [reflexivity|lra].
Qed.

(** The ratio [phi] is clamped into [[0, 2]] whatever its value, so the
    operand of the arccosine is always in its domain. *)
Lemma clamped_ratio_range (phi : R) :
  -1 <= 1 - (let phi := if Rlt_dec phi 0 then 0 else phi in
             if Rgt_dec phi 2 then 2 else phi) <= 1.
Proof. cbv zeta. decide_cmp; lra. Qed.

Lemma Circular_A_returns (h h' d : R) : d <> 0 -> returns (Circular_A_ik h h' d).
Proof.
  intros Hd. unfold Circular_A_ik, fdiv. cbv zeta.
  destruct (Req_dec_T (d / 2) 0); [lra|]. cbn [bind].
  rewrite np_arccos_in_range by apply clamped_ratio_range.
  apply returns_Ok.
Qed.

Lemma Circular_Pe_returns (h h' d : R) : d <> 0 -> returns (Circular_Pe_ik h h' d).
Proof.
  intros Hd. unfold Circular_Pe_ik, fdiv. cbv zeta.
  destruct (Req_dec_T (d / 2) 0); [lra|]. cbn [bind].
  rewrite np_arccos_in_range by apply clamped_ratio_range.
  apply returns_Ok.
Qed.

Lemma Circular_B_returns (h h' d pslot : R) :
  d <> 0 -> returns (Circular_B_ik h h' d pslot).
Proof.
  intros Hd. unfold Circular_B_ik, fdiv. cbv zeta.
  destruct (Req_dec_T (d / 2) 0); [lra|]. cbn [bind].
  rewrite np_arccos_in_range by apply clamped_ratio_range. cbn [bind].
  match goal with |- context [Rlt_dec ?a d] => destruct (Rlt_dec a d) end;
    apply returns_Ok.
Qed.

(** The three circular evaluators fail only at diameter 0, where they raise
    [ZeroDivisionError] at every pair of depths; at any other diameter,
    negative ones included, they return a real number. *)
Theorem Circular_fails_only_at_zero_diameter (h_Ik h_Ip1k d pslot : R) :
  (Circular_A_ik h_Ik h_Ip1k 0 = Raise ZeroDivisionError /\
   Circular_Pe_ik h_Ik h_Ip1k 0 = Raise ZeroDivisionError /\
   Circular_B_ik h_Ik h_Ip1k 0 pslot = Raise ZeroDivisionError) /\
  (d <> 0 ->
   returns (Circular_A_ik h_Ik h_Ip1k d) /\
   returns (Circular_Pe_ik h_Ik h_Ip1k d) /\
   returns (Circular_B_ik h_Ik h_Ip1k d pslot)).
Proof.
  split.
  - unfold Circular_A_ik, Circular_Pe_ik, Circular_B_ik, fdiv. cbv zeta.
    destruct (Req_dec_T (0 / 2) 0); [now repeat split | lra].
  - intros Hd. split; [now apply Circular_A_returns|].
    split; [now apply Circular_Pe_returns | now apply Circular_B_returns].
Qed.

Lemma Circular_fails_only_at_zero_diameter_witness :
  returns (Circular_A_ik 1 2 (-3)) /\
  returns (Circular_Pe_ik 1 2 (-3)) /\
  returns (Circular_B_ik 1 2 (-3) (1 / 1000)).
Proof.
  apply (Circular_fails_only_at_zero_diameter 1 2 (-3) (1 / 1000)). lra.
Defined.

Lemma Elliptical_arcsin_arg_returns (h h' g1 : R) :
  g1 <> 0 -> exists q, Elliptical_arcsin_arg h h' g1 = Ok q /\ -1 <= q <= 1.
Proof.
  intros Hg. unfold Elliptical_arcsin_arg, fdiv. cbv zeta.
  destruct (Req_dec_T (g1 / 2) 0); [lra|].
  eexists. split; [reflexivity|].
  set (y := if Rgt_dec _ g1 then g1 else _).
  destruct (Rlt_dec 0 g1) as [Hpos | Hneg].
  - apply Elliptical_ratio; [exact Hpos|]. unfold y. decide_cmp; lra.
  - assert (Hy : y = g1) by (unfold y; decide_cmp; lra).
    rewrite Hy. replace ((g1 - g1 / 2) / (g1 / 2)) with 1 by (field; lra). lra.
Qed.

(** The two elliptical evaluators fail only at height 0, where they raise
    [ZeroDivisionError]; at any other height the operand of the arcsine is
    in [[-1, 1]] and they return a real number. *)
Theorem Elliptical_fails_only_at_zero_height (h_Ik h_Ip1k g1 g2 : R) :
  (Elliptical_A_ik h_Ik h_Ip1k 0 g2 = Raise ZeroDivisionError /\
   Elliptical_B_ik h_Ik h_Ip1k 0 g2 = Raise ZeroDivisionError) /\
  (g1 <> 0 ->
   returns (Elliptical_A_ik h_Ik h_Ip1k g1 g2) /\
   returns (Elliptical_B_ik h_Ik h_Ip1k g1 g2)).
Proof.
  split.
  - unfold Elliptical_A_ik, Elliptical_B_ik, fdiv. cbv zeta.
    destruct (Req_dec_T (0 / 2) 0); [now split | lra].
  - intros Hg.
    destruct (Elliptical_arcsin_arg_returns h_Ik h_Ip1k g1 Hg) as (q & Hq & Hrange).
    rewrite Elliptical_A_operand, Elliptical_B_operand, Hq. cbn [bind].
    rewrite np_arcsin_in_range by exact Hrange. cbn [bind].
    rewrite np_sqrt_nonneg by apply ellipse_radicand_nonneg.
    split; apply returns_Ok.
Qed.

Lemma Elliptical_fails_only_at_zero_height_witness :
  returns (Elliptical_A_ik 5 5 (-2) 3) /\ returns (Elliptical_B_ik 5 5 (-2) 3).
Proof.
  apply (Elliptical_fails_only_at_zero_height 5 5 (-2) 3). lra.
Defined.

Lemma log_operand_pos (x : R) : 0 < x + sqrt (1 + x ^ 2).
Proof.
  pose proof (sqrt_1_plus_sq_ge_1 x) as H1.
  destruct (Rle_dec 0 x) as [Hpos | Hneg]; [lra|].
  assert (Hlt : sqrt ((- x) ^ 2) < sqrt (1 + x ^ 2)).
  { apply sqrt_lt_1_alt. split; [apply pow2_ge_0|].
    replace ((- x) ^ 2) with (x ^ 2) by ring. lra. }
  rewrite sqrt_pow2 in Hlt by lra. lra.
Qed.

(** The tail of [Parabolic_Pe_ik] past its two guards, at a depth [y] and a
    width [b] that are not zero. *)
Lemma Parabolic_Pe_tail_returns (y b : R) :
  y <> 0 -> b <> 0 ->
  returns (x <- (4 * y) // b ;;
           s <- np_sqrt (1 + x ^ 2) ;;
           u <- 1 // x ;;
           s' <- np_sqrt (1 + x ^ 2) ;;
           l <- np_log (x + s') ;;
           Ok (b / 2 * (s + u * l))).
Proof.
  intros Hy Hb. unfold fdiv at 1.
  destruct (Req_dec_T b 0); [contradiction|]. cbn [bind].
  set (x := 4 * y / b).
  assert (Hx : x <> 0).
  { unfold x, Rdiv. apply Rmult_integral_contrapositive_currified; [lra|].
    now apply Rinv_neq_0_compat. }
  pose proof (pow2_ge_0 x) as Hsq.
  rewrite np_sqrt_nonneg by lra. cbn [bind].
  unfold fdiv. destruct (Req_dec_T x 0); [contradiction|]. cbn [bind].
  unfold np_log. pose proof (log_operand_pos x).
  destruct (Rlt_dec 0 (x + sqrt (1 + x ^ 2))); [|lra].
  apply returns_Ok.
Qed.

(** [Parabolic_Pe_ik] fails exactly when the width or the height is zero, by
    raising [ZeroDivisionError]: at width 0 in [4 * y / b], at height 0 in
    [1 / x], the depth having been clamped to 0 after the epsilon
    substitution.  Otherwise it returns a real number. *)
Theorem Parabolic_Pe_fails_only_at_zero_size (h_Ik h_Ip1k g1 g2 : R) :
  Parabolic_Pe_ik h_Ik h_Ip1k g1 0 = Raise ZeroDivisionError /\
  (g2 <> 0 -> Parabolic_Pe_ik h_Ik h_Ip1k 0 g2 = Raise ZeroDivisionError) /\
  (g1 <> 0 -> g2 <> 0 -> returns (Parabolic_Pe_ik h_Ik h_Ip1k g1 g2)).
Proof.
  pose proof eps_pos as Heps.
  split; [|split].
  - unfold Parabolic_Pe_ik, fdiv. cbv zeta.
    destruct (Req_dec_T 0 0); [reflexivity|lra].
  - intros Hb. unfold Parabolic_Pe_ik. cbv zeta.
    set (y := if Rgt_dec _ 0 then 0 else _).
    assert (Hy : y = 0) by (unfold y; decide_cmp; lra).
    rewrite Hy. unfold fdiv at 1.
    destruct (Req_dec_T g2 0); [contradiction|]. cbn [bind].
    replace (4 * 0 / g2) with 0 by (field; exact Hb).
    rewrite np_sqrt_nonneg by lra. cbn [bind].
    unfold fdiv. destruct (Req_dec_T 0 0); [reflexivity|lra].
  - intros Hh Hb. unfold Parabolic_Pe_ik. cbv zeta.
    set (y := if Rgt_dec _ g1 then g1 else _).
    assert (Hy : y <> 0) by (unfold y; decide_cmp; lra).
    now apply Parabolic_Pe_tail_returns.
Qed.

Lemma Parabolic_Pe_fails_only_at_zero_size_witness :
  Parabolic_Pe_ik 1 1 0 2 = Raise ZeroDivisionError /\
  returns (Parabolic_Pe_ik 1 1 (-1) (-2)).
Proof.
  pose proof (Parabolic_Pe_fails_only_at_zero_size 1 1 0 2) as (_ & Hzero & _).
  pose proof (Parabolic_Pe_fails_only_at_zero_size 1 1 (-1) (-2)) as (_ & _ & Hret).
  split; [apply Hzero; lra | apply Hret; lra].
Defined.

(** [Parabolic_B_ik] raises [ZeroDivisionError] at height 0, yields a NaN (the
    square root of a negative ratio) when the height is negative and the
    mean depth positive, and returns a real number in every other case. *)
Theorem Parabolic_B_failures (h_Ik h_Ip1k g1 g2 : R) :
  Parabolic_B_ik h_Ik h_Ip1k 0 g2 = Raise ZeroDivisionError /\
  (g1 < 0 -> 0 < mean h_Ik h_Ip1k ->
   Parabolic_B_ik h_Ik h_Ip1k g1 g2 = Raise NonFinite) /\
  (0 < g1 \/ (g1 < 0 /\ mean h_Ik h_Ip1k <= 0) ->
   returns (Parabolic_B_ik h_Ik h_Ip1k g1 g2)).
Proof.
  split; [|split].
  - unfold Parabolic_B_ik, fdiv. cbv zeta.
    destruct (Req_dec_T 0 0); [reflexivity|lra].
  - intros Hneg Hwet. unfold mean in Hwet.
    unfold Parabolic_B_ik, fdiv. cbv zeta.
    destruct (Req_dec_T g1 0); [lra|]. cbn [bind].
    destruct (Rlt_dec ((h_Ik + h_Ip1k) / 2) 0); [lra|].
    unfold np_sqrt.
    assert (Hq : (h_Ik + h_Ip1k) / 2 / g1 < 0).
    { assert (Hinv : / g1 < 0) by (apply Rinv_lt_0_compat; lra).
      unfold Rdiv at 1. nra. }
    destruct (Rle_dec 0 ((h_Ik + h_Ip1k) / 2 / g1)); [lra | reflexivity].
  - intros [Hpos | [Hneg Hdry]].
    + destruct (Rle_dec (mean h_Ik h_Ip1k) 0) as [Hdry | Hwet].
      * rewrite Parabolic_B_dry by assumption. apply returns_Ok.
      * rewrite Parabolic_B_closed_form by lra. apply returns_Ok.
    + unfold mean in Hdry. unfold Parabolic_B_ik, fdiv. cbv zeta.
      destruct (Req_dec_T g1 0); [lra|]. cbn [bind].
      set (y := if Rlt_dec _ 0 then 0 else _).
      assert (Hy : y = 0) by (unfold y; decide_cmp; lra).
      rewrite Hy. replace (0 / g1) with 0 by (field; lra).
      rewrite np_sqrt_nonneg by lra. apply returns_Ok.
Qed.

Lemma Parabolic_B_failures_witness :
  Parabolic_B_ik 1 1 (-1) 2 = Raise NonFinite /\
  returns (Parabolic_B_ik 1 1 1 2) /\
  returns (Parabolic_B_ik (-1) (-1) (-1) 2).
Proof.
  pose proof (Parabolic_B_failures 1 1 (-1) 2) as (_ & Hnan & _).
  pose proof (Parabolic_B_failures 1 1 1 2) as (_ & _ & Hpos).
  pose proof (Parabolic_B_failures (-1) (-1) (-1) 2) as (_ & _ & Hdry).
  split; [apply Hnan; unfold mean; lra|].
  split; [apply Hpos; left; lra|].
  apply Hdry. right. unfold mean. lra.
Defined.

Lemma radius_returns (A Pe : R) :
  returns (if Rgt_dec Pe 0 then A // Pe else Ok 0).
Proof.
  unfold fdiv. destruct (Rgt_dec Pe 0); [|apply returns_Ok].
  destruct (Req_dec_T Pe 0); [lra | apply returns_Ok].
Qed.

Ltac never_fails :=
  cbv zeta;
  repeat match goal with
         | |- context [np_sqrt (1 + ?m ^ 2)] =>
             rewrite (np_sqrt_nonneg (1 + m ^ 2))
               by (pose proof (pow2_ge_0 m); lra)
         end;
  decide_cmp; cbn [bind]; try apply returns_Ok; exfalso; lra.

(** Every other evaluator returns a real number for all shape parameters and
    all depths, zero and negative ones included: the guard [Pe > 0] keeps
    the ten hydraulic-radius functions from dividing by zero, the operand
    [1 + m ^ 2] of each square root is positive, and the two tests of the
    floodplain branches are exhaustive. *)
Theorem polygonal_evaluators_never_fail (h_Ik h_Ip1k g1 g2 g3 g4 g5 g6 : R) :
  (returns (Rect_Closed_A_ik h_Ik h_Ip1k g1 g2) /\
   returns (Rect_Closed_Pe_ik h_Ik h_Ip1k g1 g2) /\
   returns (Rect_Closed_B_ik h_Ik h_Ip1k g1 g2 g3)) /\
  (returns (Rect_Open_A_ik h_Ik h_Ip1k g1 g2) /\
   returns (Rect_Open_Pe_ik h_Ik h_Ip1k g1 g2) /\
   returns (Rect_Open_B_ik h_Ik h_Ip1k g1 g2)) /\
  (returns (Triangular_A_ik h_Ik h_Ip1k g1 g2) /\
   returns (Triangular_Pe_ik h_Ik h_Ip1k g1 g2) /\
   returns (Triangular_B_ik h_Ik h_Ip1k g1 g2)) /\
  (returns (Trapezoidal_A_ik h_Ik h_Ip1k g1 g2 g3) /\
   returns (Trapezoidal_Pe_ik h_Ik h_Ip1k g1 g2 g3) /\
   returns (Trapezoidal_B_ik h_Ik h_Ip1k g1 g2 g3)) /\
  returns (Parabolic_A_ik h_Ik h_Ip1k g1 g2) /\
  (returns (Wide_A_ik h_Ik h_Ip1k g1 g2) /\
   returns (Wide_Pe_ik h_Ik h_Ip1k g1 g2) /\
   returns (Wide_B_ik h_Ik h_Ip1k g1 g2)) /\
  (returns (Force_Main_A_ik h_Ik h_Ip1k g1 g2) /\
   returns (Force_Main_Pe_ik h_Ik h_Ip1k g1 g2) /\
   returns (Force_Main_B_ik h_Ik h_Ip1k g1 g2)) /\
  (returns (Floodplain_A_ik h_Ik h_Ip1k g1 g2 g3 g4 g5 g6) /\
   returns (Floodplain_Pe_ik h_Ik h_Ip1k g1 g2 g3 g4 g5 g6) /\
   returns (Floodplain_B_ik h_Ik h_Ip1k g1 g2 g3 g4 g5 g6)) /\
  (forall A Pe,
     returns (Circular_R_ik A Pe) /\ returns (Rect_Closed_R_ik A Pe) /\
     returns (Rect_Open_R_ik A Pe) /\ returns (Triangular_R_ik A Pe) /\
     returns (Trapezoidal_R_ik A Pe) /\ returns (Parabolic_R_ik A Pe) /\
     returns (Elliptical_R_ik A Pe) /\ returns (Wide_R_ik A Pe) /\
     returns (Force_Main_R_ik A Pe) /\ returns (Floodplain_R_ik A Pe)).
Proof.
  repeat match goal with |- _ /\ _ => split end;
    try (intros A Pe; repeat split; apply radius_returns).
  - unfold Rect_Closed_A_ik. never_fails.
  - unfold Rect_Closed_Pe_ik. never_fails.
  - unfold Rect_Closed_B_ik. never_fails.
  - unfold Rect_Open_A_ik. never_fails.
  - unfold Rect_Open_Pe_ik. never_fails.
  - unfold Rect_Open_B_ik. never_fails.
  - unfold Triangular_A_ik. never_fails.
  - unfold Triangular_Pe_ik. never_fails.
  - unfold Triangular_B_ik. never_fails.
  - unfold Trapezoidal_A_ik. never_fails.
  - unfold Trapezoidal_Pe_ik. never_fails.
  - unfold Trapezoidal_B_ik. never_fails.
  - unfold Parabolic_A_ik. never_fails.
  - unfold Wide_A_ik. never_fails.
  - unfold Wide_Pe_ik. never_fails.
  - unfold Wide_B_ik. never_fails.
  - unfold Force_Main_A_ik. never_fails.
  - unfold Force_Main_Pe_ik. never_fails.
  - unfold Force_Main_B_ik. never_fails.
  - unfold Floodplain_A_ik. never_fails.
  - unfold Floodplain_Pe_ik. never_fails.
  - unfold Floodplain_B_ik. never_fails.
Qed.

(** ** Geometry of the circular conduit *)

Lemma effective_depth_full (h h' y_max : R) :
  0 <= y_max -> y_max <= mean h h' -> effective_depth h h' y_max = y_max.
Proof.
  intros Hy Hfull. unfold effective_depth, clamp, Rmax, Rmin. decide_cmp; lra.
Qed.

Lemma acos_minus_1 : acos (-1) = PI.
Proof.
  unfold acos. destruct (Rle_dec (-1) (-1)); [reflexivity | lra].
Qed.

Lemma Circular_theta_full (d : R) : 0 < d -> Circular_theta d d = PI.
Proof.
  intros Hd. unfold Circular_theta.
  replace (1 - d / (d / 2)) with (-1) by (field; lra). apply acos_minus_1.
Qed.

(** A circular conduit whose mean depth has reached the diameter is a force
    main: area, perimeter and top width are those of [Force_Main_A_ik],
    [Force_Main_Pe_ik] and [Force_Main_B_ik]. *)
Theorem Circular_full_is_Force_Main (h_Ik h_Ip1k d pslot : R) :
  0 < d -> d <= mean h_Ik h_Ip1k ->
  Circular_A_ik h_Ik h_Ip1k d = Force_Main_A_ik h_Ik h_Ip1k d pslot /\
  Circular_Pe_ik h_Ik h_Ip1k d = Force_Main_Pe_ik h_Ik h_Ip1k d pslot /\
  Circular_B_ik h_Ik h_Ip1k d pslot = Force_Main_B_ik h_Ik h_Ip1k d pslot.
Proof.
  intros Hd Hfull.
  rewrite Circular_A_closed_form, Circular_Pe_closed_form,
    Circular_B_closed_form by exact Hd.
  rewrite !effective_depth_full, !Circular_theta_full by lra.
  unfold Force_Main_A_ik, Force_Main_Pe_ik, Force_Main_B_ik. cbv zeta.
  rewrite sin_PI. destruct (Rlt_dec d d); [lra|].
  repeat split; f_equal; field.
Qed.

Lemma Circular_full_is_Force_Main_witness :
  Circular_A_ik 3 5 2 = Force_Main_A_ik 3 5 2 (1 / 1000) /\
  Circular_Pe_ik 3 5 2 = Force_Main_Pe_ik 3 5 2 (1 / 1000) /\
  Circular_B_ik 3 5 2 (1 / 1000) = Force_Main_B_ik 3 5 2 (1 / 1000).
Proof.
  apply (Circular_full_is_Force_Main 3 5 2 (1 / 1000)); unfold mean; lra.
Defined.

Lemma Circular_theta_complement (y d : R) :
  0 < d -> Circular_theta (d - y) d = PI - Circular_theta y d.
Proof.
  intros Hd. unfold Circular_theta.
  replace (1 - (d - y) / (d / 2)) with (- (1 - y / (d / 2))) by (field; lra).
  apply acos_opp.
Qed.

(** The flow sections at depths [y] and [d - y] of a circular conduit
    complement each other: their areas add up to the full area
    [PI * (d / 2) ^ 2], their wetted perimeters to the circumference
    [PI * d], and strictly between empty and full they have the same top
    width. *)
Theorem Circular_complement (h h' k k' d pslot : R) :
  0 < d -> 0 <= mean h h' -> mean h h' <= d -> mean k k' = d - mean h h' ->
  (exists a1 a2, Circular_A_ik h h' d = Ok a1 /\ Circular_A_ik k k' d = Ok a2 /\
                 a1 + a2 = PI * (d / 2) ^ 2) /\
  (exists p1 p2, Circular_Pe_ik h h' d = Ok p1 /\ Circular_Pe_ik k k' d = Ok p2 /\
                 p1 + p2 = PI * d) /\
  (0 < mean h h' -> mean h h' < d ->
   Circular_B_ik h h' d pslot = Circular_B_ik k k' d pslot).
Proof.
  intros Hd Hlo Hhi Hk.
  rewrite !Circular_A_closed_form, !Circular_Pe_closed_form,
    !Circular_B_closed_form by exact Hd.
  rewrite !effective_depth_of_mean by lra. rewrite Hk.
  rewrite !Circular_theta_complement by exact Hd.
  set (t := Circular_theta (mean h h') d).
  split; [|split].
  - do 2 eexists. split; [reflexivity|]. split; [reflexivity|].
    rewrite sin_PI_x.
    replace (cos (PI - t)) with (- cos t)
      by (rewrite cos_minus, cos_PI, sin_PI; ring).
    ring.
  - do 2 eexists. split; [reflexivity|]. split; [reflexivity|]. field.
  - intros Hlo' Hhi'.
    destruct (Rlt_dec (mean h h') d); [|lra].
    destruct (Rlt_dec (d - mean h h') d); [|lra].
    now rewrite sin_PI_x.
Qed.

Lemma Circular_complement_witness :
  (exists a1 a2, Circular_A_ik 1 1 4 = Ok a1 /\ Circular_A_ik 3 3 4 = Ok a2 /\
                 a1 + a2 = PI * (4 / 2) ^ 2) /\
  Circular_B_ik 1 1 4 (1 / 1000) = Circular_B_ik 3 3 4 (1 / 1000).
Proof.
  pose proof (Circular_complement 1 1 3 3 4 (1 / 1000)) as H.
  unfold mean in H.
  destruct H as (HA & _ & HB); try lra.
  split; [exact HA | apply HB; lra].
Defined.

Lemma chord_half_length (y d : R) :
  0 < d -> 0 <= y <= d ->
  d / 2 * sqrt (1 - (1 - y / (d / 2))²) = sqrt (y * (d - y)).
Proof.
  intros Hd Hy.
  rewrite <- (sqrt_pow2 (d / 2)) at 1 by lra.
  pose proof (half_angle_ratio y d Hd Hy) as Hphi.
  assert (Hrad : 0 <= 1 - (1 - y / (d / 2))²).
  { unfold Rsqr. nra. }
  rewrite <- sqrt_mult by (try apply pow2_ge_0; exact Hrad).
  f_equal. unfold Rsqr. field. lra.
Qed.

(** Below full depth the top width of a circular conduit is the chord
    [2 * sqrt (y * (d - y))] at depth [y], and the area is the circular
    segment [r ^ 2 * arccos (1 - y / r) - (r - y) * sqrt (y * (d - y))]. *)
Theorem Circular_chord_and_segment (h_Ik h_Ip1k d pslot : R) :
  0 < d -> 0 <= mean h_Ik h_Ip1k -> mean h_Ik h_Ip1k < d ->
  let y := mean h_Ik h_Ip1k in
  let r := d / 2 in
  Circular_B_ik h_Ik h_Ip1k d pslot = Ok (2 * sqrt (y * (d - y))) /\
  Circular_A_ik h_Ik h_Ip1k d =
    Ok (r ^ 2 * acos (1 - y / r) - (r - y) * sqrt (y * (d - y))).
Proof.
  intros Hd Hlo Hhi. cbv zeta.
  rewrite Circular_A_closed_form, Circular_B_closed_form by exact Hd.
  rewrite !effective_depth_of_mean by lra.
  set (y := mean h_Ik h_Ip1k) in *.
  pose proof (half_angle_ratio y d Hd ltac:(lra)) as Hphi.
  destruct (Rlt_dec y d); [|lra].
  unfold Circular_theta.
  rewrite cos_acos, sin_acos by lra.
  pose proof (chord_half_length y d Hd ltac:(lra)) as Hchord.
  split; f_equal.
  - rewrite <- Hchord. ring.
  - rewrite <- Hchord. field. lra.
Qed.

Lemma Circular_chord_and_segment_witness :
  Circular_B_ik 1 1 4 (1 / 1000) = Ok (2 * sqrt (mean 1 1 * (4 - mean 1 1))).
Proof.
  apply (Circular_chord_and_segment 1 1 4 (1 / 1000)); unfold mean; lra.
Defined.

(** No output of a circular conduit exceeds its full-pipe value: the area is
    at most [PI * (d / 2) ^ 2], the perimeter at most [PI * d], and the top
    width at most the larger of the diameter and the slot width. *)
Theorem Circular_outputs_bounded (h_Ik h_Ip1k d pslot : R) :
  0 < d ->
  (exists a, Circular_A_ik h_Ik h_Ip1k d = Ok a /\ a <= PI * (d / 2) ^ 2) /\
  (exists p, Circular_Pe_ik h_Ik h_Ip1k d = Ok p /\ p <= PI * d) /\
  (exists w, Circular_B_ik h_Ik h_Ip1k d pslot = Ok w /\
             w <= Rmax d (pslot * d)).
Proof.
  intros Hd.
  rewrite Circular_A_closed_form, Circular_Pe_closed_form,
    Circular_B_closed_form by exact Hd.
  set (t := Circular_theta _ d).
  pose proof (Circular_theta_range (effective_depth h_Ik h_Ip1k d) d)
    as [Ht0 HtPI].
  fold t in Ht0, HtPI.
  split; [|split].
  - eexists. split; [reflexivity|].
    pose proof (segment_monotone t PI HtPI) as Hseg.
    rewrite sin_PI in Hseg.
    rewrite (Rmult_comm PI). apply Rmult_le_compat_l; [apply pow2_ge_0 | lra].
  - eexists. split; [reflexivity|]. nra.
  - destruct (Rlt_dec (effective_depth h_Ik h_Ip1k d) d);
      eexists; (split; [reflexivity|]).
    + pose proof (SIN_bound t) as [_ Hsin].
      apply Rle_trans with d; [nra | apply Rmax_l].
    + apply Rmax_r.
Qed.

Lemma Circular_outputs_bounded_witness :
  exists a, Circular_A_ik 1 2 4 = Ok a /\ a <= PI * (4 / 2) ^ 2.
Proof.
  apply (Circular_outputs_bounded 1 2 4 (1 / 1000)). lra.
Defined.

(** ** Geometry of the elliptical conduit *)






Lemma Elliptical_theta_complement (y g1 : R) :
  g1 <> 0 -> Elliptical_theta (g1 - y) g1 = - Elliptical_theta y g1.
Proof.
  intros Hg. unfold Elliptical_theta.
  replace ((g1 - y - g1 / 2) / (g1 / 2)) with (- ((y - g1 / 2) / (g1 / 2)))
    by (field; lra).
  apply asin_opp.
Qed.

(** The flow sections at depths [y] and [g1 - y] of an elliptical conduit
    complement each other: the areas add up to the area
    [PI * (g2 / 2) * (g1 / 2)] of the ellipse and the top widths are
    equal. *)
Theorem Elliptical_complement (h h' k k' g1 g2 : R) :
  0 < g1 -> 0 <= mean h h' -> mean h h' <= g1 -> mean k k' = g1 - mean h h' ->
  (exists a1 a2,
     Elliptical_A_ik h h' g1 g2 = Ok a1 /\ Elliptical_A_ik k k' g1 g2 = Ok a2 /\
     a1 + a2 = PI * (g2 / 2) * (g1 / 2)) /\
  Elliptical_B_ik h h' g1 g2 = Elliptical_B_ik k k' g1 g2.
Proof.
  intros Hg Hlo Hhi Hk.
  rewrite !Elliptical_A_closed_form, !Elliptical_B_closed_form by exact Hg.
  cbv zeta. rewrite !effective_depth_of_mean by lra. rewrite Hk.
  rewrite Elliptical_theta_complement by lra.
  set (t := Elliptical_theta (mean h h') g1).
  rewrite cos_neg, sin_neg. split.
  - do 2 eexists. split; [reflexivity|]. split; [reflexivity|]. field.
  - replace ((- sin t) ^ 2) with (sin t ^ 2) by ring. reflexivity.
Qed.

Lemma Elliptical_complement_witness :
  Elliptical_B_ik 1 1 4 6 = Elliptical_B_ik 3 3 4 6.
Proof.
  pose proof (Elliptical_complement 1 1 3 3 4 6) as H. unfold mean in H.
  apply H; lra.
Defined.

(** Landmarks of the elliptical conduit of height [g1] and width [g2]: at
    half depth the area is half the ellipse and the top width is the full
    width [g2]; from full depth on the area is the whole ellipse.  Nothing
    is stated of the top width of the empty or of the full conduit. *)
Theorem Elliptical_landmarks (h_Ik h_Ip1k g1 g2 : R) :
  0 < g1 -> 0 <= g2 ->
  (mean h_Ik h_Ip1k = g1 / 2 ->
   Elliptical_A_ik h_Ik h_Ip1k g1 g2 = Ok (PI * (g2 / 2) * (g1 / 2) / 2) /\
   Elliptical_B_ik h_Ik h_Ip1k g1 g2 = Ok g2) /\
  (g1 <= mean h_Ik h_Ip1k ->
   Elliptical_A_ik h_Ik h_Ip1k g1 g2 = Ok (PI * (g2 / 2) * (g1 / 2))).
Proof.
  intros Hg1 Hg2.
  rewrite Elliptical_A_closed_form, Elliptical_B_closed_form by exact Hg1.
  cbv zeta. unfold Elliptical_theta.
  split.
  - intros Hhalf. rewrite effective_depth_of_mean by lra. rewrite Hhalf.
    replace ((g1 / 2 - g1 / 2) / (g1 / 2)) with 0 by (field; lra).
    rewrite asin_0, cos_0, sin_0. split; f_equal; [field|].
    replace ((g2 / 2) ^ 2 * 1 ^ 2 + (g1 / 2) ^ 2 * 0 ^ 2) with ((g2 / 2) ^ 2)
      by ring.
    rewrite sqrt_pow2 by lra. field.
  - intros Hfull. rewrite effective_depth_full by lra.
    replace ((g1 - g1 / 2) / (g1 / 2)) with 1 by (field; lra).
    rewrite asin_1, cos_PI2, sin_PI2. f_equal. field.
Qed.

Lemma Elliptical_landmarks_witness :
  Elliptical_B_ik 2 2 4 6 = Ok 6 /\
  Elliptical_A_ik 9 9 4 6 = Ok (PI * (6 / 2) * (4 / 2)).
Proof.
  pose proof (Elliptical_landmarks 2 2 4 6 ltac:(lra) ltac:(lra))
    as (Hhalf & _).
  pose proof (Elliptical_landmarks 9 9 4 6 ltac:(lra) ltac:(lra))
    as (_ & Hfull).
  split; [apply Hhalf; unfold mean; lra|].
  apply Hfull. unfold mean. lra.
Defined.

Lemma asin_monotone (a b : R) :
  -1 <= a -> a <= b -> b <= 1 -> asin a <= asin b.
Proof.
  intros Ha Hab Hb.
  destruct (Rle_dec (asin a) (asin b)) as [Hle | Hgt]; [exact Hle|].
  exfalso.
  pose proof (asin_bound a) as [Ha0 Ha1].
  pose proof (asin_bound b) as [Hb0 Hb1].
  pose proof (sin_increasing_1 (asin b) (asin a) Hb0 Hb1 Ha0 Ha1 ltac:(lra))
    as H.
  rewrite !sin_asin in H by lra. lra.
Qed.

Lemma ellipse_segment_shift (t : R) :
  PI / 2 + t - cos (PI / 2 + t) * sin (PI / 2 + t) = PI / 2 + t + cos t * sin t.
Proof.
  rewrite cos_plus, sin_plus, cos_PI2, sin_PI2. ring.
Qed.

Lemma ellipse_segment_monotone (s t : R) :
  s <= t -> PI / 2 + s + cos s * sin s <= PI / 2 + t + cos t * sin t.
Proof.
  intros Hst. rewrite <- !ellipse_segment_shift.
  apply segment_monotone. lra.
Qed.

Lemma Elliptical_theta_monotone (y1 y2 g1 : R) :
  0 < g1 -> 0 <= y1 -> y1 <= y2 -> y2 <= g1 ->
  Elliptical_theta y1 g1 <= Elliptical_theta y2 g1.
Proof.
  intros Hg H1 H12 H2. unfold Elliptical_theta.
  pose proof (Elliptical_ratio y1 g1 Hg ltac:(lra)).
  pose proof (Elliptical_ratio y2 g1 Hg ltac:(lra)).
  apply asin_monotone; try lra.
  unfold Rdiv. apply Rmult_le_compat_r; [|lra].
  apply Rlt_le, Rinv_0_lt_compat. lra.
Qed.

(** The area of the two shapes the monotonicity claim leaves out is
    non-decreasing in the mean depth as well: the elliptical area for a
    positive height and a non-negative width, the parabolic area for a
    non-negative width. *)
Theorem Elliptical_and_Parabolic_A_monotone (g1 g2 : R) :
  0 <= g2 ->
  (0 < g1 -> monotone_on (fun h h' => Elliptical_A_ik h h' g1 g2) g1) /\
  monotone_on (fun h h' => Parabolic_A_ik h h' g1 g2) g1.
Proof.
  intros Hg2. split.
  - intros Hg1 h1 h1' h2 h2' H0 H12 Hmax.
    rewrite !Elliptical_A_closed_form by exact Hg1. cbv zeta.
    rewrite !effective_depth_of_mean by lra.
    pose proof (Elliptical_theta_monotone (mean h1 h1') (mean h2 h2') g1
                  Hg1 H0 H12 Hmax) as Htheta.
    set (s := Elliptical_theta (mean h1 h1') g1) in *.
    set (t := Elliptical_theta (mean h2 h2') g1) in *.
    pose proof (ellipse_segment_monotone s t Htheta) as Hseg.
    do 2 eexists. split; [reflexivity|]. split; [reflexivity|].
    assert (Hab : 0 <= g2 / 2 * (g1 / 2)) by (apply Rmult_le_pos; lra).
    nra.
  - unfold Parabolic_A_ik. monotone_by_cases.
Qed.

Lemma Elliptical_and_Parabolic_A_monotone_witness :
  monotone_on (fun h h' => Elliptical_A_ik h h' 4 6) 4 /\
  monotone_on (fun h h' => Parabolic_A_ik h h' 4 6) 4.
Proof.
  pose proof (Elliptical_and_Parabolic_A_monotone 4 6 ltac:(lra)) as [HE HP].
  split; [apply HE; lra | exact HP].
Defined.

(** ** Relations between the polygonal shapes *)

Ltac same_depth :=
  cbv zeta;
  repeat match goal with
         | |- context [np_sqrt (1 + ?m ^ 2)] =>
             rewrite (np_sqrt_nonneg (1 + m ^ 2))
               by (pose proof (pow2_ge_0 m); lra)
         end;
  cbn [bind]; decide_cmp; f_equal; try ring.

Lemma sqrt_1_plus_0 : sqrt (1 + 0 ^ 2) = 1.
Proof. replace (1 + 0 ^ 2) with 1 by ring. apply sqrt_1. Qed.

(** A trapezoid with vertical sides is the open rectangle of the same height
    and width, and a trapezoid with no bed is the triangle of the same height
    and side slope: area, perimeter and top width coincide at every pair of
    depths. *)
Theorem Trapezoidal_degenerate (h_Ik h_Ip1k y_max b m : R) :
  (Trapezoidal_A_ik h_Ik h_Ip1k y_max b 0 = Rect_Open_A_ik h_Ik h_Ip1k y_max b /\
   Trapezoidal_Pe_ik h_Ik h_Ip1k y_max b 0 = Rect_Open_Pe_ik h_Ik h_Ip1k y_max b /\
   Trapezoidal_B_ik h_Ik h_Ip1k y_max b 0 = Rect_Open_B_ik h_Ik h_Ip1k y_max b) /\
  (Trapezoidal_A_ik h_Ik h_Ip1k y_max 0 m = Triangular_A_ik h_Ik h_Ip1k y_max m /\
   Trapezoidal_Pe_ik h_Ik h_Ip1k y_max 0 m = Triangular_Pe_ik h_Ik h_Ip1k y_max m /\
   Trapezoidal_B_ik h_Ik h_Ip1k y_max 0 m = Triangular_B_ik h_Ik h_Ip1k y_max m).
Proof.
  unfold Trapezoidal_A_ik, Trapezoidal_Pe_ik, Trapezoidal_B_ik,
    Rect_Open_A_ik, Rect_Open_Pe_ik, Rect_Open_B_ik,
    Triangular_A_ik, Triangular_Pe_ik, Triangular_B_ik.
  repeat split; same_depth; rewrite sqrt_1_plus_0; ring.
Qed.

Lemma Trapezoidal_A_closed_form (h h' y_max b m : R) :
  0 <= y_max ->
  Trapezoidal_A_ik h h' y_max b m =
  Ok (effective_depth h h' y_max * (b + m * effective_depth h h' y_max)).
Proof.
  intros Hy. rewrite effective_depth_clamped by exact Hy. reflexivity.
Qed.

Lemma Trapezoidal_Pe_closed_form (h h' y_max b m : R) :
  0 <= y_max ->
  Trapezoidal_Pe_ik h h' y_max b m =
  Ok (b + 2 * effective_depth h h' y_max * sqrt (1 + m ^ 2)).
Proof.
  intros Hy. rewrite effective_depth_clamped by exact Hy.
  unfold Trapezoidal_Pe_ik. cbv zeta.
  rewrite np_sqrt_nonneg by (pose proof (pow2_ge_0 m); lra). reflexivity.
Qed.

Lemma Trapezoidal_B_closed_form (h h' y_max b m : R) :
  0 <= y_max ->
  Trapezoidal_B_ik h h' y_max b m =
  Ok (b + 2 * m * effective_depth h h' y_max).
Proof.
  intros Hy. rewrite effective_depth_clamped by exact Hy.
  unfold Trapezoidal_B_ik. cbv zeta.
  set (y0 := if Rlt_dec _ 0 then 0 else _).
  destruct (Rlt_dec y0 y_max), (Rgt_dec y0 y_max);
    try reflexivity; try lra.
  replace y0 with y_max by lra. reflexivity.
Qed.

(** A floodplain channel whose transition depth lies above its height never
    reaches the upper stage: it is the trapezoid of the lower channel. *)
Theorem Floodplain_below_transition_is_Trapezoidal
        (h_Ik h_Ip1k y_max y_mid b_lower b_upper m_lower m_upper : R) :
  0 <= y_max -> y_max < y_mid ->
  Floodplain_A_ik h_Ik h_Ip1k y_max y_mid b_lower b_upper m_lower m_upper =
    Trapezoidal_A_ik h_Ik h_Ip1k y_max b_lower m_lower /\
  Floodplain_Pe_ik h_Ik h_Ip1k y_max y_mid b_lower b_upper m_lower m_upper =
    Trapezoidal_Pe_ik h_Ik h_Ip1k y_max b_lower m_lower /\
  Floodplain_B_ik h_Ik h_Ip1k y_max y_mid b_lower b_upper m_lower m_upper =
    Trapezoidal_B_ik h_Ik h_Ip1k y_max b_lower m_lower.
Proof.
  intros Hmax Hmid.
  rewrite Floodplain_A_closed_form, Floodplain_Pe_closed_form,
    Floodplain_B_closed_form, Trapezoidal_A_closed_form,
    Trapezoidal_Pe_closed_form, Trapezoidal_B_closed_form by exact Hmax.
  cbv zeta.
  pose proof (effective_depth_range h_Ik h_Ip1k y_max Hmax) as [_ Hy].
  destruct (Rlt_dec (effective_depth h_Ik h_Ip1k y_max) y_mid); [|lra].
  repeat split; f_equal; ring.
Qed.

Lemma Floodplain_below_transition_is_Trapezoidal_witness :
  Floodplain_Pe_ik 1 2 3 4 5 6 7 8 = Trapezoidal_Pe_ik 1 2 3 5 7.
Proof.
  apply (Floodplain_below_transition_is_Trapezoidal 1 2 3 4 5 6 7 8); lra.
Defined.

Lemma Trapezoidal_mean_width_rule (y_max b m : R) :
  mean_width_rule (fun h h' => Trapezoidal_A_ik h h' y_max b m)
                  (fun h h' => Trapezoidal_B_ik h h' y_max b m) y_max.
Proof.
  intros h1 h1' h2 h2' H1 H2.
  rewrite !Trapezoidal_A_closed_form, !Trapezoidal_B_closed_form by lra.
  rewrite !effective_depth_of_mean by lra.
  do 4 eexists. repeat (split; [reflexivity|]). field.
Qed.

Ltac mean_width_by_cases :=
  intros h1 h1' h2 h2'; unfold mean; intros H1 H2; cbv zeta;
  do 4 eexists; repeat (split; [reflexivity|]);
  decide_cmp; try (exfalso; lra); field.

(** For the trapezoidal, triangular, open rectangular and wide shapes the
    top width is the rate of change of the area over the whole range
    [[0, y_max]]: between any two mean depths the area grows by the depth
    increment times the mean of the two top widths. *)
Theorem Area_grows_by_top_width (y_max b m : R) :
  mean_width_rule (fun h h' => Trapezoidal_A_ik h h' y_max b m)
                  (fun h h' => Trapezoidal_B_ik h h' y_max b m) y_max /\
  mean_width_rule (fun h h' => Triangular_A_ik h h' y_max m)
                  (fun h h' => Triangular_B_ik h h' y_max m) y_max /\
  mean_width_rule (fun h h' => Rect_Open_A_ik h h' y_max b)
                  (fun h h' => Rect_Open_B_ik h h' y_max b) y_max /\
  mean_width_rule (fun h h' => Wide_A_ik h h' y_max b)
                  (fun h h' => Wide_B_ik h h' y_max b) y_max.
Proof.
  split; [apply Trapezoidal_mean_width_rule|].
  split; [|split].
  - intros h1 h1' h2 h2' H1 H2.
    destruct (Trapezoidal_mean_width_rule y_max 0 m h1 h1' h2 h2' H1 H2)
      as (a1 & a2 & w1 & w2 & HA1 & HA2 & HB1 & HB2 & Hrule).
    exists a1, a2, w1, w2.
    unfold Trapezoidal_A_ik, Trapezoidal_B_ik in HA1, HA2, HB1, HB2.
    unfold Triangular_A_ik, Triangular_B_ik. cbv zeta in *.
    repeat split; try exact Hrule.
    + rewrite <- HA1. f_equal. ring.
    + rewrite <- HA2. f_equal. ring.
    + rewrite <- HB1. decide_cmp; f_equal; ring.
    + rewrite <- HB2. decide_cmp; f_equal; ring.
  - unfold Rect_Open_A_ik, Rect_Open_B_ik. mean_width_by_cases.
  - unfold Wide_A_ik, Wide_B_ik. mean_width_by_cases.
Qed.

(** ** Wetted perimeter and hydraulic radius *)

Lemma Circular_theta_pos (y d : R) :
  0 < d -> 0 < y -> y <= d -> 0 < Circular_theta y d.
Proof.
  intros Hd Hy Hyd.
  pose proof (Circular_theta_range y d) as [H0 _].
  destruct (Req_dec (Circular_theta y d) 0) as [Hz | Hnz]; [exfalso | lra].
  pose proof (half_angle_ratio y d Hd ltac:(lra)) as Hphi.
  assert (Hcos : cos (Circular_theta y d) = 1 - y / (d / 2))
    by (apply cos_acos; lra).
  rewrite Hz, cos_0 in Hcos.
  assert (Hratio : 0 < y / (d / 2)) by (apply Rdiv_lt_0_compat; lra).
  lra.
Qed.

Lemma effective_depth_dry (h h' y_max : R) :
  0 <= y_max -> mean h h' <= 0 -> effective_depth h h' y_max = 0.
Proof.
  intros Hy Hdry. unfold effective_depth, clamp, Rmax, Rmin. decide_cmp; lra.
Qed.

Lemma effective_depth_wet (h h' y_max : R) :
  0 < y_max -> 0 < mean h h' -> 0 < effective_depth h h' y_max.
Proof.
  intros Hy Hwet. unfold effective_depth, clamp, Rmax, Rmin. decide_cmp; lra.
Qed.

Lemma positive_Ok (v : R) : 0 < v -> positive (Ok v).
Proof. intros Hv. now exists v. Qed.

Ltac positive_by_cases :=
  cbv zeta;
  repeat match goal with
         | |- context [np_sqrt (1 + ?m ^ 2)] =>
             pose proof (sqrt_1_plus_sq_ge_1 m);
             rewrite (np_sqrt_nonneg (1 + m ^ 2))
               by (pose proof (pow2_ge_0 m); lra)
         end;
  cbn [bind]; decide_cmp; apply positive_Ok; nra.

(** With positive shape parameters the wetted perimeter is strictly positive
    at every pair of depths for the rectangular, trapezoidal, parabolic,
    wide, force-main and floodplain shapes.  For the circular and triangular
    shapes it is strictly positive when the mean depth is positive and
    exactly 0 otherwise: these dry sections are the inputs on which the
    guard [Pe > 0] of the hydraulic radius returns 0. *)
Theorem wetted_perimeter_positive (h_Ik h_Ip1k g1 g2 g3 g4 g5 g6 : R) :
  0 < g1 -> 0 < g2 -> 0 < g3 -> 0 < g4 -> 0 < g5 -> 0 < g6 ->
  (positive (Rect_Closed_Pe_ik h_Ik h_Ip1k g1 g2) /\
   positive (Rect_Open_Pe_ik h_Ik h_Ip1k g1 g2) /\
   positive (Trapezoidal_Pe_ik h_Ik h_Ip1k g1 g2 g3) /\
   positive (Parabolic_Pe_ik h_Ik h_Ip1k g1 g2) /\
   positive (Wide_Pe_ik h_Ik h_Ip1k g1 g2) /\
   positive (Force_Main_Pe_ik h_Ik h_Ip1k g1 g2) /\
   positive (Floodplain_Pe_ik h_Ik h_Ip1k g1 g2 g3 g4 g5 g6)) /\
  (0 < mean h_Ik h_Ip1k ->
   positive (Circular_Pe_ik h_Ik h_Ip1k g1) /\
   positive (Triangular_Pe_ik h_Ik h_Ip1k g1 g2)) /\
  (mean h_Ik h_Ip1k <= 0 ->
   Circular_Pe_ik h_Ik h_Ip1k g1 = Ok 0 /\
   Triangular_Pe_ik h_Ik h_Ip1k g1 g2 = Ok 0 /\
   (forall A, Circular_R_ik A 0 = Ok 0 /\ Triangular_R_ik A 0 = Ok 0)).
Proof.
  intros H1 H2 H3 H4 H5 H6. pose proof PI_RGT_0 as Hpi.
  split; [|split].
  - split; [unfold Rect_Closed_Pe_ik; positive_by_cases|].
    split; [unfold Rect_Open_Pe_ik; positive_by_cases|].
    split; [unfold Trapezoidal_Pe_ik; positive_by_cases|].
    split; [now apply Parabolic_Pe_positive|].
    split; [apply positive_Ok; exact H2|].
    split; [apply positive_Ok; unfold Force_Main_Pe_ik; nra|].
    rewrite Floodplain_Pe_closed_form by lra. cbv zeta.
    pose proof (effective_depth_range h_Ik h_Ip1k g1 ltac:(lra)) as [Hy0 Hy1].
    set (y := effective_depth h_Ik h_Ip1k g1) in *.
    pose proof (sqrt_1_plus_sq_ge_1 g5) as Hsl.
    pose proof (sqrt_1_plus_sq_ge_1 g6) as Hsu.
    pose proof (side_length_ge_slope g5) as Hside.
    destruct (Rlt_dec y g2); apply positive_Ok.
    + assert (0 <= y * sqrt (1 + g5 ^ 2)) by (apply Rmult_le_pos; lra). lra.
    + assert (0 <= g2 * (sqrt (1 + g5 ^ 2) - g5)) by (apply Rmult_le_pos; lra).
      assert (0 <= (y - g2) * sqrt (1 + g6 ^ 2)) by (apply Rmult_le_pos; lra).
      lra.
  - intros Hwet.
    pose proof (effective_depth_wet h_Ik h_Ip1k g1 H1 Hwet) as Hy.
    pose proof (effective_depth_range h_Ik h_Ip1k g1 ltac:(lra)) as [_ Hy1].
    split.
    + rewrite Circular_Pe_closed_form by exact H1. apply positive_Ok.
      pose proof (Circular_theta_pos _ g1 H1 Hy Hy1). nra.
    + unfold mean in Hwet. unfold Triangular_Pe_ik. positive_by_cases.
  - intros Hdry. split; [|split].
    + rewrite Circular_Pe_closed_form, effective_depth_dry by lra.
      unfold Circular_theta.
      replace (1 - 0 / (g1 / 2)) with 1 by (field; lra).
      rewrite acos_1. f_equal. ring.
    + unfold mean in Hdry. unfold Triangular_Pe_ik. cbv zeta.
      rewrite np_sqrt_nonneg by (pose proof (pow2_ge_0 g2); lra). cbn [bind].
      set (y := if Rgt_dec _ g1 then g1 else _).
      assert (Hy : y = 0) by (unfold y; decide_cmp; lra).
      rewrite Hy. f_equal. ring.
    + intros A. unfold Circular_R_ik, Triangular_R_ik.
      destruct (Rgt_dec 0 0); [lra | now split].
Qed.

Lemma wetted_perimeter_positive_witness :
  positive (Circular_Pe_ik 1 1 4) /\
  positive (Triangular_Pe_ik 1 1 4 2) /\
  Circular_Pe_ik (-1) 0 4 = Ok 0.
Proof.
  pose proof (wetted_perimeter_positive 1 1 4 2 1 1 1 1 ltac:(lra) ltac:(lra)
                ltac:(lra) ltac:(lra) ltac:(lra) ltac:(lra))
    as (_ & Hwet & _).
  pose proof (wetted_perimeter_positive (-1) 0 4 2 1 1 1 1 ltac:(lra)
                ltac:(lra) ltac:(lra) ltac:(lra) ltac:(lra) ltac:(lra))
    as (_ & _ & Hdry).
  destruct Hwet as [HC HT]; [unfold mean; lra|].
  destruct Hdry as [HC0 _]; [unfold mean; lra|].
  split; [exact HC|]. split; [exact HT | exact HC0].
Defined.

(** The hydraulic radius of a wide channel of positive width is the
    effective depth itself; that of a force main of positive diameter is
    [d / 4] at every pair of depths; that of an open rectangle of positive
    width exceeds neither the effective depth nor half the width. *)
Theorem hydraulic_radius_values (h_Ik h_Ip1k g1 g2 : R) :
  0 < g1 -> 0 < g2 ->
  radius_of Wide_R_ik (Wide_A_ik h_Ik h_Ip1k g1 g2) (Wide_Pe_ik h_Ik h_Ip1k g1 g2)
    = Ok (effective_depth h_Ik h_Ip1k g1) /\
  radius_of Force_Main_R_ik (Force_Main_A_ik h_Ik h_Ip1k g1 g2)
            (Force_Main_Pe_ik h_Ik h_Ip1k g1 g2)
    = Ok (g1 / 4) /\
  (exists r,
     radius_of Rect_Open_R_ik (Rect_Open_A_ik h_Ik h_Ip1k g1 g2)
               (Rect_Open_Pe_ik h_Ik h_Ip1k g1 g2) = Ok r /\
     r <= effective_depth h_Ik h_Ip1k g1 /\ r <= g2 / 2).
Proof.
  intros H1 H2. pose proof PI_RGT_0 as Hpi.
  pose proof (effective_depth_range h_Ik h_Ip1k g1 ltac:(lra)) as [Hy0 Hy1].
  rewrite effective_depth_clamped in * by lra. cbv zeta in *.
  unfold radius_of, Wide_A_ik, Wide_Pe_ik, Wide_R_ik,
    Force_Main_A_ik, Force_Main_Pe_ik, Force_Main_R_ik,
    Rect_Open_A_ik, Rect_Open_Pe_ik, Rect_Open_R_ik, fdiv.
  cbv zeta. cbn [bind].
  set (y := if Rgt_dec _ g1 then g1 else _) in *.
  split; [|split].
  - destruct (Rgt_dec g2 0); [|lra].
    destruct (Req_dec_T g2 0); [lra|]. f_equal. field. lra.
  - destruct (Rgt_dec (PI * g1) 0); [|nra].
    destruct (Req_dec_T (PI * g1) 0); [nra|]. f_equal. field. lra.
  - destruct (Rgt_dec (g2 + 2 * y) 0); [|lra].
    destruct (Req_dec_T (g2 + 2 * y) 0); [lra|].
    eexists. split; [reflexivity|].
    assert (Hinv : 0 < / (g2 + 2 * y)) by (apply Rinv_0_lt_compat; lra).
    assert (Hone : (g2 + 2 * y) * / (g2 + 2 * y) = 1) by (apply Rinv_r; lra).
    unfold Rdiv. split.
    + apply Rmult_le_reg_r with (g2 + 2 * y); [lra|].
      rewrite Rmult_assoc, (Rmult_comm (/ _)), Hone. nra.
    + apply Rmult_le_reg_r with (g2 + 2 * y); [lra|].
      rewrite Rmult_assoc, (Rmult_comm (/ _)), Hone. nra.
Qed.

Lemma hydraulic_radius_values_witness :
  radius_of Wide_R_ik (Wide_A_ik 1 2 4 3) (Wide_Pe_ik 1 2 4 3)
    = Ok (effective_depth 1 2 4) /\
  radius_of Force_Main_R_ik (Force_Main_A_ik 1 2 4 3) (Force_Main_Pe_ik 1 2 4 3)
    = Ok (4 / 4).
Proof.
  pose proof (hydraulic_radius_values 1 2 4 3 ltac:(lra) ltac:(lra))
    as (HW & HF & _).
  split; [exact HW | exact HF].
Defined.

Lemma Circular_Pe_monotone (d : R) :
  0 < d -> monotone_on (fun h h' => Circular_Pe_ik h h' d) d.
Proof.
  intros Hd h1 h1' h2 h2' H0 H12 Hmax.
  rewrite !Circular_Pe_closed_form by exact Hd.
  rewrite !effective_depth_of_mean by lra.
  do 2 eexists. split; [reflexivity|]. split; [reflexivity|].
  apply Rmult_le_compat_l; [lra|].
  apply Circular_theta_monotone; lra.
Qed.

Ltac perimeter_monotone :=
  let y1 := fresh "y1" in
  let y2 := fresh "y2" in
  intros h1 h1' h2 h2'; unfold mean;
  set (y1 := (h1 + h1') / 2); set (y2 := (h2 + h2') / 2);
  intros H0 H12 Hmax; cbv zeta;
  repeat match goal with
         | |- context [np_sqrt (1 + ?m ^ 2)] =>
             pose proof (sqrt_1_plus_sq_ge_1 m);
             rewrite (np_sqrt_nonneg (1 + m ^ 2))
               by (pose proof (pow2_ge_0 m); lra)
         end;
  cbn [bind];
  do 2 eexists; split; [reflexivity|]; split; [reflexivity|];
  decide_cmp; nra.

(** The wetted perimeter of the circular (positive diameter), closed and
    open rectangular, triangular and trapezoidal shapes is non-decreasing in
    the mean depth over [[0, y_max]], whatever the widths and side slopes. *)
Theorem Perimeter_monotone (y_max b m : R) :
  (0 < y_max -> monotone_on (fun h h' => Circular_Pe_ik h h' y_max) y_max) /\
  monotone_on (fun h h' => Rect_Closed_Pe_ik h h' y_max b) y_max /\
  monotone_on (fun h h' => Rect_Open_Pe_ik h h' y_max b) y_max /\
  monotone_on (fun h h' => Triangular_Pe_ik h h' y_max m) y_max /\
  monotone_on (fun h h' => Trapezoidal_Pe_ik h h' y_max b m) y_max.
Proof.
  split; [apply Circular_Pe_monotone|].
  split; [unfold Rect_Closed_Pe_ik; perimeter_monotone|].
  split; [unfold Rect_Open_Pe_ik; perimeter_monotone|].
  split; [unfold Triangular_Pe_ik; perimeter_monotone|].
  unfold Trapezoidal_Pe_ik; perimeter_monotone.
Qed.

Lemma Perimeter_monotone_witness :
  monotone_on (fun h h' => Circular_Pe_ik h h' 4) 4.
Proof.
  pose proof (Perimeter_monotone 4 1 1) as [HC _]. apply HC. lra.
Defined.

(** The wetted perimeter of a floodplain channel with [0 < y_mid < y_max] is
    non-decreasing in the mean depth exactly when the upper bed is at least
    as wide as the top of the lower channel,
    [b_lower + 2 * m_lower * y_mid <= b_upper]; with a narrower upper bed the
    perimeter drops at the transition depth. *)
Theorem Floodplain_Pe_monotone_iff
        (y_max y_mid b_lower b_upper m_lower m_upper : R) :
  0 < y_mid -> y_mid < y_max ->
  monotone_on
    (fun h h' => Floodplain_Pe_ik h h' y_max y_mid b_lower b_upper m_lower m_upper)
    y_max <->
  b_lower + 2 * m_lower * y_mid <= b_upper.
Proof.
  intros Hmid Hmax.
  pose proof (sqrt_1_plus_sq_ge_1 m_lower) as Hsl.
  pose proof (sqrt_1_plus_sq_ge_1 m_upper) as Hsu.
  set (sl := sqrt (1 + m_lower ^ 2)) in *.
  set (su := sqrt (1 + m_upper ^ 2)) in *.
  split.
  - intros Hmono.
    destruct (Rle_dec (b_lower + 2 * m_lower * y_mid) b_upper) as [Hle | Hgt];
      [exact Hle | exfalso].
    set (gap := b_lower + 2 * m_lower * y_mid - b_upper).
    assert (Hgap : 0 < gap) by (unfold gap; lra).
    assert (Hq : 0 < gap / (4 * sl)) by (apply Rdiv_lt_0_compat; lra).
    set (delta := Rmin (y_mid / 2) (gap / (4 * sl))).
    assert (Hdelta : 0 < delta) by (apply Rmin_pos; lra).
    pose proof (Rmin_l (y_mid / 2) (gap / (4 * sl))) as Hd1.
    pose proof (Rmin_r (y_mid / 2) (gap / (4 * sl))) as Hd2.
    fold delta in Hd1, Hd2.
    assert (Hm1 : mean (y_mid - delta) (y_mid - delta) = y_mid - delta)
      by (unfold mean; field).
    assert (Hm2 : mean y_mid y_mid = y_mid) by (unfold mean; field).
    destruct (Hmono (y_mid - delta) (y_mid - delta) y_mid y_mid)
      as (v1 & v2 & Hv1 & Hv2 & Hle); try (rewrite ?Hm1, ?Hm2; lra).
    rewrite Floodplain_Pe_closed_form in Hv1, Hv2 by lra.
    cbv zeta in Hv1, Hv2.
    rewrite effective_depth_of_mean in Hv1 by (rewrite Hm1; lra).
    rewrite effective_depth_of_mean in Hv2 by (rewrite Hm2; lra).
    rewrite Hm1 in Hv1. rewrite Hm2 in Hv2.
    destruct (Rlt_dec (y_mid - delta) y_mid); [|lra].
    destruct (Rlt_dec y_mid y_mid); [lra|].
    apply Ok_inj in Hv1. apply Ok_inj in Hv2. fold sl su in Hv1, Hv2.
    assert (Hprod : gap / (4 * sl) * (4 * sl) = gap) by (field; lra).
    assert (Hbound : delta * (4 * sl) <= gap) by nra.
    unfold gap in *. nra.
  - intros Hwide h1 h1' h2 h2' H0 H12 Hhi.
    rewrite !Floodplain_Pe_closed_form by lra. cbv zeta.
    rewrite !effective_depth_of_mean by lra.
    fold sl su.
    set (y1 := mean h1 h1') in *. set (y2 := mean h2 h2') in *.
    destruct (Rlt_dec y1 y_mid), (Rlt_dec y2 y_mid);
      do 2 eexists; (split; [reflexivity|]); (split; [reflexivity|]);
      nra.
Qed.

Lemma Floodplain_Pe_monotone_iff_witness :
  monotone_on (fun h h' => Floodplain_Pe_ik h h' 2 1 2 10 1 1) 2 /\
  ~ monotone_on (fun h h' => Floodplain_Pe_ik h h' 2 1 2 3 1 1) 2.
Proof.
  pose proof (Floodplain_Pe_monotone_iff 2 1 2 10 1 1 ltac:(lra) ltac:(lra))
    as [_ Hwide].
  pose proof (Floodplain_Pe_monotone_iff 2 1 2 3 1 1 ltac:(lra) ltac:(lra))
    as [Hnarrow _].
  split; [apply Hwide; lra|].
  intros Hmono. apply Hnarrow in Hmono. lra.
Defined.

(** ** Top width of the parabolic channel *)

(** For positive height and width the top width of a parabolic channel at a
    mean depth [y >= 0] is [b * sqrt (y / y_max)] without any bound on [y]:
    it is the width [b] at [y = y_max], exceeds [b] at every mean depth above
    [y_max], and is non-decreasing over all non-negative mean depths. *)
Theorem Parabolic_B_grows_past_full_depth (h_Ik h_Ip1k g1 g2 : R) :
  0 < g1 -> 0 < g2 ->
  (mean h_Ik h_Ip1k = g1 -> Parabolic_B_ik h_Ik h_Ip1k g1 g2 = Ok g2) /\
  (g1 < mean h_Ik h_Ip1k ->
   exists w, Parabolic_B_ik h_Ik h_Ip1k g1 g2 = Ok w /\ g2 < w) /\
  (forall k k', 0 <= mean h_Ik h_Ip1k -> mean h_Ik h_Ip1k <= mean k k' ->
     result_le (Parabolic_B_ik h_Ik h_Ip1k g1 g2) (Parabolic_B_ik k k' g1 g2)).
Proof.
  intros Hg1 Hg2.
  assert (Hinv : 0 < / g1) by now apply Rinv_0_lt_compat.
  split; [|split].
  - intros Hfull. rewrite Parabolic_B_closed_form by lra. rewrite Hfull.
    replace (g1 / g1) with 1 by (field; lra). rewrite sqrt_1. f_equal. ring.
  - intros Hover. rewrite Parabolic_B_closed_form by lra.
    eexists. split; [reflexivity|].
    assert (Hq : 1 < mean h_Ik h_Ip1k / g1).
    { apply Rmult_lt_reg_r with g1; [exact Hg1|].
      unfold Rdiv. rewrite Rmult_assoc, Rinv_l by lra. lra. }
    assert (Hs : 1 < sqrt (mean h_Ik h_Ip1k / g1)).
    { rewrite <- sqrt_1 at 1. apply sqrt_lt_1_alt. lra. }
    nra.
  - intros k k' H0 Hle. rewrite !Parabolic_B_closed_form by lra.
    do 2 eexists. split; [reflexivity|]. split; [reflexivity|].
    apply Rmult_le_compat_l; [lra|]. apply sqrt_le_1_alt.
    unfold Rdiv. apply Rmult_le_compat_r; lra.
Qed.

Lemma Parabolic_B_grows_past_full_depth_witness :
  Parabolic_B_ik 2 2 2 3 = Ok 3 /\
  (exists w, Parabolic_B_ik 5 5 2 3 = Ok w /\ 3 < w).
Proof.
  pose proof (Parabolic_B_grows_past_full_depth 2 2 2 3 ltac:(lra) ltac:(lra))
    as (Hfull & _).
  pose proof (Parabolic_B_grows_past_full_depth 5 5 2 3 ltac:(lra) ltac:(lra))
    as (_ & Hover & _).
  split; [apply Hfull | apply Hover]; unfold mean; lra.
Defined.

(** ** The table of geometry codes *)

(** [geom_code] assigns the nine codes 1 to 9 to nine shape names, each code
    to exactly one name; the floodplain shape, which the module implements,
    has no entry, so that looking it up raises [KeyError]. *)
Theorem geom_code_bijective :
  (forall k1 k2 c,
     geom_code k1 = Some c -> geom_code k2 = Some c -> k1 = k2) /\
  (forall k c, geom_code k = Some c -> (1 <= c <= 9)%Z) /\
  (forall c, (1 <= c <= 9)%Z -> exists k, geom_code k = Some c) /\
  geom_code "floodplain" = None.
Proof.
  split; [|split; [|split]].
  - intros k1 k2 c. unfold geom_code, geom_code_items, lookup.
    repeat match goal with
           | |- context [String.eqb ?a ?b] =>
               destruct (String.eqb_spec a b); subst
           end;
      intros H1 H2; try reflexivity; try discriminate; congruence.
  - intros k c. unfold geom_code, geom_code_items, lookup.
    repeat match goal with
           | |- context [String.eqb ?a ?b] => destruct (String.eqb a b)
           end;
      intros H; try discriminate; injection H as <-; lia.
  - intros c Hc.
    assert (Hcases : (c = 1 \/ c = 2 \/ c = 3 \/ c = 4 \/ c = 5 \/ c = 6 \/
                      c = 7 \/ c = 8 \/ c = 9)%Z) by lia.
    destruct Hcases as [-> | [-> | [-> | [-> | [-> | [-> | [-> | [-> | ->]]]]]]]].
    + now exists "circular"%string.
    + now exists "rect_closed"%string.
    + now exists "rect_open"%string.
    + now exists "triangular"%string.
    + now exists "trapezoidal"%string.
    + now exists "parabolic"%string.
    + now exists "elliptical"%string.
    + now exists "wide"%string.
    + now exists "force_main"%string.
  - reflexivity.
Qed.

Lemma geom_code_bijective_witness :
  "wide"%string = "wide"%string /\ (1 <= 8 <= 9)%Z /\
  (exists k, geom_code k = Some 5%Z).
Proof.
  destruct geom_code_bijective as (Hinj & Hrange & Hsurj & _).
  split; [apply (Hinj "wide"%string "wide"%string 8%Z); reflexivity|].
  split; [apply (Hrange "wide"%string 8%Z); reflexivity|].
  apply Hsurj. lia.
Defined.

(** ** The top width of a circular conduit is the derivative of its area *)

Lemma derivable_pt_lim_acos (x : R) :
  -1 < x < 1 -> derivable_pt_lim acos x (-1 / sqrt (1 - x²)).
Proof.
  intros Hx.
  apply derive_pt_eq_1 with (pr := derivable_pt_acos x Hx).
  apply derive_pt_acos.
Qed.

Lemma derivable_pt_lim_ratio (r y : R) :
  r <> 0 -> derivable_pt_lim (fun z => 1 - z / r) y (- / r).
Proof.
  intros Hr e He. exists (mkposreal 1 Rlt_0_1). intros h Hh _.
  replace ((1 - (y + h) / r - (1 - y / r)) / h - - / r) with 0
    by (field; split; assumption).
  now rewrite Rabs_R0.
Qed.

Lemma derivable_pt_lim_segment (t : R) :
  derivable_pt_lim (fun t => t - cos t * sin t) t (2 * (sin t * sin t)).
Proof.
  assert (H : derivable_pt_lim (id - cos * sin)%F t
                (1 - (- sin t * sin t + cos t * cos t))).
  { apply derivable_pt_lim_minus; [apply derivable_pt_lim_id|].
    apply derivable_pt_lim_mult;
      [apply derivable_pt_lim_cos | apply derivable_pt_lim_sin]. }
  replace (2 * (sin t * sin t))
    with (1 - (- sin t * sin t + cos t * cos t)).
  - exact H.
  - pose proof (sin2_cos2 t) as Hone. unfold Rsqr in Hone. lra.
Qed.

Lemma Circular_area_derivative (y d : R) :
  0 < d -> 0 < y -> y < d ->
  derivable_pt_lim
    (fun z => (d / 2) ^ 2 * (Circular_theta z d
                             - cos (Circular_theta z d)
                               * sin (Circular_theta z d)))
    y (2 * (d / 2) * sin (Circular_theta y d)).
Proof.
  intros Hd Hy0 Hyd.
  set (r := d / 2). assert (Hr : 0 < r) by (unfold r; lra).
  set (u := 1 - y / r).
  assert (Hu : -1 < u < 1).
  { assert (Hinv : 0 < / r) by now apply Rinv_0_lt_compat.
    assert (Hone : r * / r = 1) by (apply Rinv_r; lra).
    unfold u, Rdiv, r in *. split; nra. }
  assert (Hsin : sin (Circular_theta y d) = sqrt (1 - u²))
    by (apply sin_acos; lra).
  assert (Hroot : 0 < sqrt (1 - u²)).
  { apply sqrt_lt_R0. unfold Rsqr. nra. }
  pose proof (derivable_pt_lim_comp (fun z => 1 - z / r) acos y _ _
                (derivable_pt_lim_ratio r y ltac:(lra))
                (derivable_pt_lim_acos u Hu)) as Htheta.
  pose proof (derivable_pt_lim_comp _ (fun t => t - cos t * sin t) y _ _
                Htheta (derivable_pt_lim_segment _)) as Hseg.
  pose proof (derivable_pt_lim_scal _ (r ^ 2) y _ Hseg) as Harea.
  replace (2 * r * sin (Circular_theta y d))
    with (r ^ 2 * (2 * (sin (acos u) * sin (acos u))
                   * (-1 / sqrt (1 - u²) * - / r))).
  - exact Harea.
  - fold u in Hsin. unfold Circular_theta in Hsin. fold r u in Hsin.
    unfold Circular_theta. fold r u. rewrite Hsin. field. split; lra.
Qed.

(** Strictly between empty and full, the top width that [Circular_B_ik]
    returns is the derivative with respect to the depth of the area that
    [Circular_A_ik] returns. *)
Theorem Circular_B_is_dA_dy (y d pslot : R) :
  0 < d -> 0 < y -> y < d ->
  derivable_pt_lim (fun z => value (Circular_A_ik z z d)) y
                   (value (Circular_B_ik y y d pslot)).
Proof.
  intros Hd Hy0 Hyd.
  rewrite Circular_B_closed_form, effective_depth_same by lra.
  destruct (Rlt_dec y d); [|lra]. cbn [value].
  apply derivable_pt_lim_locally_ext
    with (a := 0) (b := d)
         (f := fun z => (d / 2) ^ 2 * (Circular_theta z d
                                       - cos (Circular_theta z d)
                                         * sin (Circular_theta z d)));
    [lra | | now apply Circular_area_derivative].
  intros z Hz.
  rewrite Circular_A_closed_form, effective_depth_same by lra. reflexivity.
Qed.

Lemma Circular_B_is_dA_dy_witness :
  derivable_pt_lim (fun z => value (Circular_A_ik z z 4)) 1
                   (value (Circular_B_ik 1 1 4 (1 / 1000))).
Proof.
  apply (Circular_B_is_dA_dy 1 4 (1 / 1000)); lra.
Defined.

(** ** Top width and area derivative of the elliptical conduit *)

Lemma derivable_pt_lim_asin (x : R) :
  -1 < x < 1 -> derivable_pt_lim asin x (1 / sqrt (1 - x²)).
Proof.
  intros Hx.
  apply derive_pt_eq_1 with (pr := derivable_pt_asin x Hx).
  apply derive_pt_asin.
Qed.

Lemma derivable_pt_lim_offset (b y : R) :
  b <> 0 -> derivable_pt_lim (fun z => (z - b) / b) y (/ b).
Proof.
  intros Hb e He. exists (mkposreal 1 Rlt_0_1). intros h Hh _.
  replace (((y + h - b) / b - (y - b) / b) / h - / b) with 0
    by (field; split; assumption).
  now rewrite Rabs_R0.
Qed.

Lemma derivable_pt_lim_ellipse_segment (t : R) :
  derivable_pt_lim (fun t => PI / 2 + t + cos t * sin t) t
                   (2 * (cos t * cos t)).
Proof.
  assert (H : derivable_pt_lim (fct_cte (PI / 2) + id + cos * sin)%F t
                (0 + 1 + (- sin t * sin t + cos t * cos t))).
  { apply derivable_pt_lim_plus.
    - apply derivable_pt_lim_plus;
        [apply derivable_pt_lim_const | apply derivable_pt_lim_id].
    - apply derivable_pt_lim_mult;
        [apply derivable_pt_lim_cos | apply derivable_pt_lim_sin]. }
  replace (2 * (cos t * cos t))
    with (0 + 1 + (- sin t * sin t + cos t * cos t)).
  - exact H.
  - pose proof (sin2_cos2 t) as Hone. unfold Rsqr in Hone. lra.
Qed.

Lemma Elliptical_ratio_strict (y g1 : R) :
  0 < g1 -> 0 < y -> y < g1 -> -1 < (y - g1 / 2) / (g1 / 2) < 1.
Proof.
  intros Hg Hy0 Hy1.
  assert (Heq : (y - g1 / 2) / (g1 / 2) = 2 * y * / g1 - 1) by (field; lra).
  assert (Hinv : 0 < / g1) by now apply Rinv_0_lt_compat.
  assert (Hone : g1 * / g1 = 1) by (apply Rinv_r; lra).
  rewrite Heq. split; nra.
Qed.

Lemma Elliptical_area_derivative (y g1 g2 : R) :
  0 < g1 -> 0 < y -> y < g1 ->
  derivable_pt_lim
    (fun z => g2 / 2 * (g1 / 2)
              * (PI / 2 + Elliptical_theta z g1
                 + cos (Elliptical_theta z g1) * sin (Elliptical_theta z g1)))
    y (g2 * cos (Elliptical_theta y g1)).
Proof.
  intros Hg Hy0 Hy1.
  set (b := g1 / 2). assert (Hb : 0 < b) by (unfold b; lra).
  set (q := (y - b) / b).
  pose proof (Elliptical_ratio_strict y g1 Hg Hy0 Hy1) as Hq. fold b q in Hq.
  assert (Hcos : cos (asin q) = sqrt (1 - q²)) by (apply cos_asin; lra).
  assert (Hroot : 0 < sqrt (1 - q²)).
  { apply sqrt_lt_R0. unfold Rsqr. nra. }
  pose proof (derivable_pt_lim_comp (fun z => (z - b) / b) asin y _ _
                (derivable_pt_lim_offset b y ltac:(lra))
                (derivable_pt_lim_asin q Hq)) as Htheta.
  pose proof (derivable_pt_lim_comp _ (fun t => PI / 2 + t + cos t * sin t)
                y _ _ Htheta (derivable_pt_lim_ellipse_segment _)) as Hseg.
  pose proof (derivable_pt_lim_scal _ (g2 / 2 * b) y _ Hseg) as Harea.
  unfold Elliptical_theta. fold b q.
  replace (g2 * cos (asin q))
    with (g2 / 2 * b * (2 * (cos (asin q) * cos (asin q))
                        * (1 / sqrt (1 - q²) * / b))).
  - exact Harea.
  - rewrite Hcos. field. split; lra.
Qed.

(** Strictly between empty and full, the derivative with respect to the
    depth of the area [Elliptical_A_ik] returns is the chord
    [g2 * cos theta] of the ellipse.  The top width [Elliptical_B_ik] returns
    is [2 * cos theta * sqrt (a ^ 2 * cos theta ^ 2 + b ^ 2 * sin theta ^ 2)];
    for positive axes it equals that derivative exactly when the two axes
    are equal or the depth is half the height. *)
Theorem Elliptical_B_versus_dA_dy (y g1 g2 : R) :
  0 < g1 -> 0 < g2 -> 0 < y -> y < g1 ->
  derivable_pt_lim (fun z => value (Elliptical_A_ik z z g1 g2)) y
                   (g2 * cos (Elliptical_theta y g1)) /\
  (value (Elliptical_B_ik y y g1 g2) = g2 * cos (Elliptical_theta y g1) <->
   g1 = g2 \/ y = g1 / 2).
Proof.
  intros Hg1 Hg2 Hy0 Hy1. split.
  - apply derivable_pt_lim_locally_ext
      with (a := 0) (b := g1)
           (f := fun z =>
                   g2 / 2 * (g1 / 2)
                   * (PI / 2 + Elliptical_theta z g1
                      + cos (Elliptical_theta z g1)
                        * sin (Elliptical_theta z g1)));
      [lra | | now apply Elliptical_area_derivative].
    intros z Hz.
    rewrite Elliptical_A_closed_form, effective_depth_same by lra.
    cbv zeta. cbn [value]. ring.
  - rewrite Elliptical_B_closed_form, effective_depth_same by lra.
    cbv zeta. cbn [value].
    pose proof (Elliptical_ratio_strict y g1 Hg1 Hy0 Hy1) as Hq.
    pose proof (asin_bound_lt _ Hq) as [Hlo Hhi].
    fold (Elliptical_theta y g1) in Hlo, Hhi.
    set (t := Elliptical_theta y g1) in *.
    pose proof (cos_gt_0 t Hlo Hhi) as Hcos.
    pose proof (sin2_cos2 t) as Hone. unfold Rsqr in Hone.
    set (a := g2 / 2) in *. set (b := g1 / 2) in *.
    assert (Hrad : 0 <= a ^ 2 * cos t ^ 2 + b ^ 2 * sin t ^ 2)
      by apply ellipse_radicand_nonneg.
    assert (Hsin0 : sin t = 0 <-> y = b).
    { unfold t, Elliptical_theta. fold b.
      rewrite sin_asin by lra. split.
      - intros Hz. apply Rmult_eq_compat_r with (r := b) in Hz.
        unfold Rdiv in Hz. rewrite Rmult_assoc, Rinv_l, Rmult_0_l in Hz
          by (unfold b; lra).
        lra.
      - intros ->. unfold Rdiv. ring. }
    split.
    + intros Heq.
      assert (Hroot : sqrt (a ^ 2 * cos t ^ 2 + b ^ 2 * sin t ^ 2) = a).
      { apply Rmult_eq_reg_l with (2 * cos t); [|lra].
        rewrite Heq. unfold a. field. }
      assert (Hsq : a ^ 2 * cos t ^ 2 + b ^ 2 * sin t ^ 2 = a ^ 2).
      { pose proof (sqrt_sqrt _ Hrad) as Hss. rewrite Hroot in Hss.
        rewrite <- Hss. ring. }
      assert (Hprod : (b - a) * (b + a) * (sin t * sin t) = 0) by nra.
      apply Rmult_integral in Hprod. destruct Hprod as [Hab | Hss].
      * apply Rmult_integral in Hab. unfold a, b in *.
        destruct Hab; [left; lra | lra].
      * right. apply Hsin0. apply Rmult_integral in Hss. tauto.
    + intros [Heq | Hhalf].
      * assert (Hab : b = a) by (unfold a, b; lra).
        rewrite Hab.
        replace (a ^ 2 * cos t ^ 2 + a ^ 2 * sin t ^ 2) with (a ^ 2) by nra.
        rewrite sqrt_pow2 by (unfold a; lra). unfold a. field.
      * apply Hsin0 in Hhalf. rewrite Hhalf.
        assert (Hc1 : cos t * cos t = 1) by nra.
        replace (a ^ 2 * cos t ^ 2 + b ^ 2 * 0 ^ 2) with (a ^ 2) by nra.
        rewrite sqrt_pow2 by (unfold a; lra). unfold a. field.
Qed.

Lemma Elliptical_B_versus_dA_dy_witness :
  derivable_pt_lim (fun z => value (Elliptical_A_ik z z 4 6)) 1
                   (6 * cos (Elliptical_theta 1 4)) /\
  value (Elliptical_B_ik 2 2 4 6) = 6 * cos (Elliptical_theta 2 4) /\
  value (Elliptical_B_ik 1 1 4 6) <> 6 * cos (Elliptical_theta 1 4).
Proof.
  pose proof (Elliptical_B_versus_dA_dy 1 4 6 ltac:(lra) ltac:(lra)
                ltac:(lra) ltac:(lra)) as [Hderiv Hoff].
  pose proof (Elliptical_B_versus_dA_dy 2 4 6 ltac:(lra) ltac:(lra)
                ltac:(lra) ltac:(lra)) as [_ Hhalf].
  split; [exact Hderiv|]. split.
  - apply Hhalf. right. lra.
  - intros Heq. apply Hoff in Heq. lra.
Defined.

(** ** The floodplain channel as two stacked trapezoids *)

(** For [0 <= y_mid <= y_max] the floodplain area is the sum of two
    trapezoidal areas: the lower channel, of height [y_mid], at the given
    depths, and the upper channel, of height [y_max - y_mid], at the depths
    measured from the transition. *)
Theorem Floodplain_A_is_two_trapezoids
        (h_Ik h_Ip1k y_max y_mid b_lower b_upper m_lower m_upper : R) :
  0 <= y_mid -> y_mid <= y_max ->
  exists a_lower a_upper,
    Trapezoidal_A_ik h_Ik h_Ip1k y_mid b_lower m_lower = Ok a_lower /\
    Trapezoidal_A_ik (h_Ik - y_mid) (h_Ip1k - y_mid) (y_max - y_mid)
                     b_upper m_upper = Ok a_upper /\
    Floodplain_A_ik h_Ik h_Ip1k y_max y_mid b_lower b_upper m_lower m_upper
      = Ok (a_lower + a_upper).
Proof.
  intros Hmid Hmax.
  unfold Trapezoidal_A_ik, Floodplain_A_ik. cbv zeta.
  replace ((h_Ik - y_mid + (h_Ip1k - y_mid)) / 2)
    with ((h_Ik + h_Ip1k) / 2 - y_mid) by field.
  set (y := (h_Ik + h_Ip1k) / 2).
  do 2 eexists. split; [reflexivity|]. split; [reflexivity|].
  decide_cmp; cbn [bind]; try (exfalso; lra); f_equal;
    repeat match goal with
           | H : ~ _ < _ |- _ => apply Rnot_lt_le in H
           | H : ~ _ > _ |- _ => apply Rnot_gt_le in H
           end;
    try (assert (y = y_mid) by lra; subst y);
    try (assert (y_mid = 0) by lra);
    try (assert (y_max = y_mid) by lra);
    nra.
Qed.

Lemma Floodplain_A_is_two_trapezoids_witness :
  exists a_lower a_upper,
    Trapezoidal_A_ik 3 3 2 5 1 = Ok a_lower /\
    Trapezoidal_A_ik (3 - 2) (3 - 2) (4 - 2) 9 1 = Ok a_upper /\
    Floodplain_A_ik 3 3 4 2 5 9 1 1 = Ok (a_lower + a_upper).
Proof.
  apply (Floodplain_A_is_two_trapezoids 3 3 4 2 5 9 1 1); lra.
Defined.

Lemma Area_grows_by_top_width_witness :
  exists a1 a2 w1 w2,
    Trapezoidal_A_ik 1 1 4 3 2 = Ok a1 /\ Trapezoidal_A_ik 2 4 4 3 2 = Ok a2 /\
    Trapezoidal_B_ik 1 1 4 3 2 = Ok w1 /\ Trapezoidal_B_ik 2 4 4 3 2 = Ok w2 /\
    a2 - a1 = (mean 2 4 - mean 1 1) * ((w1 + w2) / 2).
Proof.
  destruct (Area_grows_by_top_width 4 3 2) as [Htrap _].
  apply (Htrap 1 1 2 4); unfold mean; lra.
Defined.
